(** * RAGManager: a bounded pool of per-course LightRAG engines

    Shallow embedding of [src/lightrag/rag_manager.py].

    The manager keeps two insertion-ordered Python dicts,
    [rag_instances] (course id -> engine) and [course_access_count]
    (course id -> int), and a capacity [max_preloaded].  Order matters
    (the eviction tie-break is the iteration order of the dict), so the
    dicts are association lists with Python's update-in-place /
    append-at-the-end discipline.

    The LightRAG engine is external.  Its three entry points used by the
    manager -- the constructor, [initialize_storages] and
    [finalize_storages] -- are oracles that may raise; their outcome may
    depend on the moment of the call (the number of events observed so
    far), so an engine may fail once and succeed later.

    Every coroutine of the manager is embedded as one atomic step of a
    state-and-exception monad: [_initialization_lock] serialises the bodies
    of [initialize_course], and [get_rag] has no suspension point
    between the return of [initialize_course] and its own bookkeeping.
    Other coroutines that run while an engine call is awaited inside
    [initialize_course] or [cleanup] are outside this model.  The state
    records, next to the fields of the manager, the trace of the engine
    calls and log records made so far. *)

From Stdlib Require Import String List ZArith Lia Bool.
Import ListNotations.
Local Open Scope string_scope.
Local Open Scope Z_scope.

(* ------------------------------------------------------------------ *)
(** ** Python dictionaries (insertion ordered) *)

Module Dict.
Section Ops.
Context {V : Type}.

Definition t := list (string * V).

(** [d.keys()], in iteration order. *)
Definition keys (d : t) : list string := map fst d.

(** [d.get(k)] *)
Fixpoint get (d : t) (k : string) : option V :=
  match d with
  | [] => None
  | (k', v) :: r => if String.eqb k k' then Some v else get r k
  end.

(** [k in d] *)
Definition contains (d : t) (k : string) : bool :=
  match get d k with Some _ => true | None => false end.

(** [d.get(k, default)] *)
Definition get_default (d : t) (k : string) (default : V) : V :=
  match get d k with Some v => v | None => default end.

(** [d[k] = v]: an existing key keeps its position, a new key goes last. *)
Fixpoint set (d : t) (k : string) (v : V) : t :=
  match d with
  | [] => [(k, v)]
  | (k', v') :: r =>
      if String.eqb k k' then (k', v) :: r else (k', v') :: set r k v
  end.

(** [del d[k]] on a key that is present (absence is tested by the caller,
    which raises KeyError). *)
Fixpoint del (d : t) (k : string) : t :=
  match d with
  | [] => []
  | (k', v') :: r => if String.eqb k k' then r else (k', v') :: del r k
  end.

(** [len(d)] *)
Definition len (d : t) : Z := Z.of_nat (length d).
End Ops.
Arguments t : clear implicits.
End Dict.

(** [min(items, key=lambda x: x[1])]: the running minimum is replaced only
    by a strictly smaller key, so the first minimal item in iteration order
    is returned; [None] stands for the ValueError on an empty iterable. *)
Fixpoint min_from (best : string * Z) (items : list (string * Z)) : string * Z :=
  match items with
  | [] => best
  | x :: r => if snd x <? snd best then min_from x r else min_from best r
  end.

Definition py_min (items : list (string * Z)) : option (string * Z) :=
  match items with
  | [] => None
  | x :: r => Some (min_from x r)
  end.

(** [l[:stop]] for an int [stop]: a negative stop counts from the end. *)
Definition slice_to {A : Type} (stop : Z) (l : list A) : list A :=
  firstn (Z.to_nat (if stop <? 0 then stop + Z.of_nat (length l) else stop)) l.

(* ------------------------------------------------------------------ *)
(** ** Exceptions, log records and observable events *)

Inductive exn : Type :=
| ValueError                      (* min() of an empty iterable *)
| KeyError (k : string)           (* d[k] / del d[k] on a missing key *)
| ConstructError                  (* the LightRAG constructor raised *)
| InitializeError                 (* rag.initialize_storages() raised *)
| FinalizeError.                  (* rag.finalize_storages() raised *)

Inductive level : Type := INFO | ERROR.

Inductive message : Type :=
| MsgInitialized (course_id : string)              (* line 125 *)
| MsgPreloaded (n : Z)                             (* line 141 *)
| MsgSwitchFailed (course_id : string) (e : exn)   (* line 174 *)
| MsgCleaned (course_id : string)                  (* line 182 *)
| MsgCleanupFailed (course_id : string) (e : exn). (* line 184 *)

Inductive event : Type :=
| EvConstruct (namespace_prefix : string)   (* the LightRAG constructor *)
| EvInitialize (course_id : string)         (* rag.initialize_storages() *)
| EvFinalize (course_id : string)           (* rag.finalize_storages() *)
| EvLog (lvl : level) (msg : message).      (* logger.info / logger.error *)

Inductive result (A : Type) : Type :=
| Ok (a : A)
| Raise (e : exn).
Arguments Ok {A} a.
Arguments Raise {A} e.

Definition is_ok {A : Type} (r : result A) : bool :=
  match r with Ok _ => true | Raise _ => false end.

(** The namespaces handed to the LightRAG constructor, and the courses
    whose engine was asked to finalize, in the order of the calls. *)
Definition constructed (tr : list event) : list string :=
  flat_map (fun ev => match ev with EvConstruct ns => [ns] | _ => [] end) tr.

Definition finalized (tr : list event) : list string :=
  flat_map (fun ev => match ev with EvFinalize c => [c] | _ => [] end) tr.

(* ------------------------------------------------------------------ *)
(** ** The manager *)

(** The external engine class and its three fallible entry points.  The
    [nat] is the moment of the call.  The constructor receives the merged
    keyword arguments, of which only [namespace_prefix] is set by the
    manager; the dependence on the others is absorbed by the oracle. *)
Class EngineAPI (LightRAG : Type) : Type := {
  LightRAG_new : nat -> string -> option LightRAG;
  initialize_storages : nat -> LightRAG -> bool;
  finalize_storages : nat -> LightRAG -> bool
}.

Section Manager.

Context {LightRAG : Type} {api : EngineAPI LightRAG}.

Record RAGManager : Type := mkRAGManager {
  rag_instances : Dict.t LightRAG;
  max_preloaded : Z;
  course_access_count : Dict.t Z;
  trace : list event
}.

(** [RAGManager.__init__], lines 61-64. *)
Definition RAGManager_init (max_preloaded : Z) : RAGManager :=
  {| rag_instances := [];
     max_preloaded := max_preloaded;
     course_access_count := [];
     trace := [] |}.

Definition now (self : RAGManager) : nat := length (trace self).

Definition set_rag_instances (d : Dict.t LightRAG) (self : RAGManager) :=
  {| rag_instances := d;
     max_preloaded := max_preloaded self;
     course_access_count := course_access_count self;
     trace := trace self |}.

Definition set_course_access_count (d : Dict.t Z) (self : RAGManager) :=
  {| rag_instances := rag_instances self;
     max_preloaded := max_preloaded self;
     course_access_count := d;
     trace := trace self |}.

Definition emit (ev : event) (self : RAGManager) :=
  {| rag_instances := rag_instances self;
     max_preloaded := max_preloaded self;
     course_access_count := course_access_count self;
     trace := trace self ++ [ev] |}.

(** *** State and exception monad: a raise keeps the mutations made so far *)

Definition M (A : Type) : Type := RAGManager -> result A * RAGManager.

Definition ret {A : Type} (a : A) : M A := fun self => (Ok a, self).

Definition raise {A : Type} (e : exn) : M A := fun self => (Raise e, self).

Definition bind {A B : Type} (m : M A) (k : A -> M B) : M B :=
  fun self =>
    match m self with
    | (Ok a, self') => k a self'
    | (Raise e, self') => (Raise e, self')
    end.

(** [try: body  except Exception as e: handler(e)] *)
Definition try_except {A : Type} (body : M A) (handler : exn -> M A) : M A :=
  fun self =>
    match body self with
    | (Ok a, self') => (Ok a, self')
    | (Raise e, self') => handler e self'
    end.

Definition get_self : M RAGManager := fun self => (Ok self, self).

Definition modify (f : RAGManager -> RAGManager) : M unit :=
  fun self => (Ok tt, f self).

Notation "x <- m ;; k" := (bind m (fun x => k))
  (at level 61, m at next level, right associativity).
Notation "m ;; k" := (bind m (fun _ => k))
  (at level 61, right associativity).

Definition logger (lvl : level) (msg : message) : M unit :=
  modify (emit (EvLog lvl msg)).

(** *** Calls into the engine *)

Definition call_LightRAG (namespace_prefix : string) : M LightRAG :=
  fun self =>
    let self' := emit (EvConstruct namespace_prefix) self in
    match LightRAG_new (now self) namespace_prefix with
    | Some rag => (Ok rag, self')
    | None => (Raise ConstructError, self')
    end.

Definition call_initialize_storages (course_id : string) (rag : LightRAG) : M unit :=
  fun self =>
    let self' := emit (EvInitialize course_id) self in
    if initialize_storages (now self) rag then (Ok tt, self')
    else (Raise InitializeError, self').

Definition call_finalize_storages (course_id : string) (rag : LightRAG) : M unit :=
  fun self =>
    let self' := emit (EvFinalize course_id) self in
    if finalize_storages (now self) rag then (Ok tt, self')
    else (Raise FinalizeError, self').

(** *** Dict statements that may raise KeyError *)

Definition getitem_rag_instances (k : string) : M LightRAG :=
  self <- get_self ;;
  match Dict.get (rag_instances self) k with
  | Some rag => ret rag
  | None => raise (KeyError k)
  end.

Definition delitem_rag_instances (k : string) : M unit :=
  self <- get_self ;;
  if Dict.contains (rag_instances self) k
  then modify (set_rag_instances (Dict.del (rag_instances self) k))
  else raise (KeyError k).

Definition delitem_course_access_count (k : string) : M unit :=
  self <- get_self ;;
  if Dict.contains (course_access_count self) k
  then modify (set_course_access_count (Dict.del (course_access_count self) k))
  else raise (KeyError k).

(** *** [initialize_course], lines 90-126 *)

(** Lines 106-110: make room when the pool is full. *)
Definition evict_least_used : M unit :=
  self <- get_self ;;
  if Dict.len (rag_instances self) >=? max_preloaded self then
    match py_min (course_access_count self) with
    | None => raise ValueError
    | Some item =>
        let least_used := fst item in
        rag <- getitem_rag_instances least_used ;;
        call_finalize_storages least_used rag ;;
        delitem_rag_instances least_used ;;
        delitem_course_access_count least_used
    end
  else ret tt.

(** Lines 112-126: build, initialise and register the new engine. *)
Definition create_instance (course_id : string) : M LightRAG :=
  rag <- call_LightRAG ("course_" ++ course_id) ;;
  call_initialize_storages course_id rag ;;
  modify (fun self =>
    set_rag_instances (Dict.set (rag_instances self) course_id rag) self) ;;
  modify (fun self =>
    set_course_access_count (Dict.set (course_access_count self) course_id 0) self) ;;
  logger INFO (MsgInitialized course_id) ;;
  ret rag.

Definition initialize_course (course_id : string) : M LightRAG :=
  self <- get_self ;;
  match Dict.get (rag_instances self) course_id with
  | Some rag => ret rag
  | None => evict_least_used ;; create_instance course_id
  end.

(** *** [preload_courses], lines 128-141 *)

(** [await asyncio.gather] of the tasks, without [return_exceptions].  The
    lock admits the tasks one at a time, in creation order.  When none of
    them raises, the caller resumes after the last one has finished.  When
    one raises, its exception is raised in the caller as soon as that task
    has failed: the tasks queued behind it are not cancelled, but they are
    still waiting or in flight then.  So the state handed back with the
    exception is the one left by the failing task; each task behind it is,
    when the lock admits it later, one more run of [initialize_course]. *)
Fixpoint gather {A : Type} (tasks : list (M A)) : M unit :=
  fun self =>
    match tasks with
    | [] => (Ok tt, self)
    | task :: rest =>
        match task self with
        | (Ok _, self1) => gather rest self1
        | (Raise e, self1) => (Raise e, self1)
        end
    end.

Definition preload_courses (course_ids : list string) : M unit :=
  self <- get_self ;;
  let tasks := map initialize_course (slice_to (max_preloaded self) course_ids) in
  gather tasks ;;
  logger INFO (MsgPreloaded (Z.of_nat (length tasks))).

(** *** [get_rag], lines 143-158 *)

(** Line 157: [count[course_id] = count.get(course_id, 0) + 1]. *)
Definition touched (course_id : string) (self : RAGManager) : RAGManager :=
  set_course_access_count
    (Dict.set (course_access_count self) course_id
       (Dict.get_default (course_access_count self) course_id 0 + 1)) self.

Definition get_rag (course_id : string) : M LightRAG :=
  self <- get_self ;;
  (if negb (Dict.contains (rag_instances self) course_id)
   then initialize_course course_id ;; ret tt
   else ret tt) ;;
  modify (touched course_id) ;;
  getitem_rag_instances course_id.

(** *** [switch_course], lines 160-175 *)

Definition switch_course (course_id : string) : M bool :=
  try_except
    (get_rag course_id ;; ret true)
    (fun e => logger ERROR (MsgSwitchFailed course_id e) ;; ret false).

(** *** [cleanup], lines 177-187 *)

Fixpoint cleanup_loop (items : list (string * LightRAG)) : M unit :=
  match items with
  | [] => ret tt
  | (course_id, rag) :: rest =>
      try_except
        (call_finalize_storages course_id rag ;;
         logger INFO (MsgCleaned course_id))
        (fun e => logger ERROR (MsgCleanupFailed course_id e)) ;;
      cleanup_loop rest
  end.

Definition cleanup : M unit :=
  self <- get_self ;;
  cleanup_loop (rag_instances self) ;;
  modify (set_rag_instances []) ;;
  modify (set_course_access_count []).

(** *** Sequences of operations on one manager *)

Inductive op : Type :=
| OpInitialize (course_id : string)
| OpPreload (course_ids : list string)
| OpGet (course_id : string)
| OpSwitch (course_id : string)
| OpCleanup.

(** The state left by one operation, whether it returned or raised. *)
Definition run_op (o : op) (self : RAGManager) : RAGManager :=
  match o with
  | OpInitialize c => snd (initialize_course c self)
  | OpPreload cs => snd (preload_courses cs self)
  | OpGet c => snd (get_rag c self)
  | OpSwitch c => snd (switch_course c self)
  | OpCleanup => snd (cleanup self)
  end.

Definition run_ops (ops : list op) (self : RAGManager) : RAGManager :=
  fold_left (fun s o => run_op o s) ops self.

(** Keys of the pool mapping and of the access tracker, in dict order. *)
Definition resident (self : RAGManager) : list string :=
  Dict.keys (rag_instances self).

Definition tracked (self : RAGManager) : list string :=
  Dict.keys (course_access_count self).

(** A manager state reached from a freshly constructed manager. *)
Definition reachable (cap : Z) (self : RAGManager) : Prop :=
  exists ops, self = run_ops ops (RAGManager_init cap).

(** What one run of the loop of [cleanup] adds to the trace, tenant by
    tenant: the finalize call, then one INFO or one ERROR record. *)
Fixpoint cleanup_events (t : nat) (items : list (string * LightRAG)) : list event :=
  match items with
  | [] => []
  | (course_id, rag) :: rest =>
      EvFinalize course_id
      :: (if finalize_storages t rag
          then EvLog INFO (MsgCleaned course_id)
          else EvLog ERROR (MsgCleanupFailed course_id FinalizeError))
      :: cleanup_events (S (S t)) rest
  end.

(** *** The invariant kept by every operation *)

Record pool_inv (self : RAGManager) : Prop := mkPoolInv {
  inv_aligned : resident self = tracked self;
  inv_nodup : NoDup (resident self);
  inv_capacity : Dict.len (rag_instances self) <= Z.max 0 (max_preloaded self)
}.

(** *** The possible outcomes of the two halves of [initialize_course] *)

Definition evicted (v : string) (self : RAGManager) : RAGManager :=
  set_course_access_count (Dict.del (course_access_count self) v)
    (set_rag_instances (Dict.del (rag_instances self) v)
       (emit (EvFinalize v) self)).

Inductive evict_outcome (self : RAGManager) : result unit -> RAGManager -> Prop :=
| EvictRoom :
    Dict.len (rag_instances self) < max_preloaded self ->
    evict_outcome self (Ok tt) self
| EvictNothing :
    max_preloaded self <= Dict.len (rag_instances self) ->
    py_min (course_access_count self) = None ->
    evict_outcome self (Raise ValueError) self
| EvictUnknown v n :
    max_preloaded self <= Dict.len (rag_instances self) ->
    py_min (course_access_count self) = Some (v, n) ->
    Dict.get (rag_instances self) v = None ->
    evict_outcome self (Raise (KeyError v)) self
| EvictFinalizeRaises v n rag :
    max_preloaded self <= Dict.len (rag_instances self) ->
    py_min (course_access_count self) = Some (v, n) ->
    Dict.get (rag_instances self) v = Some rag ->
    finalize_storages (now self) rag = false ->
    evict_outcome self (Raise FinalizeError) (emit (EvFinalize v) self)
| EvictDone v n rag :
    max_preloaded self <= Dict.len (rag_instances self) ->
    py_min (course_access_count self) = Some (v, n) ->
    Dict.get (rag_instances self) v = Some rag ->
    finalize_storages (now self) rag = true ->
    evict_outcome self (Ok tt) (evicted v self).

Definition registered (course_id : string) (rag : LightRAG) (self : RAGManager)
  : RAGManager :=
  emit (EvLog INFO (MsgInitialized course_id))
    (set_course_access_count (Dict.set (course_access_count self) course_id 0)
       (set_rag_instances (Dict.set (rag_instances self) course_id rag)
          (emit (EvInitialize course_id)
             (emit (EvConstruct ("course_" ++ course_id)) self)))).

Inductive create_outcome (course_id : string) (self : RAGManager)
  : result LightRAG -> RAGManager -> Prop :=
| CreateConstructRaises :
    LightRAG_new (now self) ("course_" ++ course_id) = None ->
    create_outcome course_id self (Raise ConstructError)
      (emit (EvConstruct ("course_" ++ course_id)) self)
| CreateInitializeRaises rag :
    LightRAG_new (now self) ("course_" ++ course_id) = Some rag ->
    initialize_storages (S (now self)) rag = false ->
    create_outcome course_id self (Raise InitializeError)
      (emit (EvInitialize course_id)
         (emit (EvConstruct ("course_" ++ course_id)) self))
| CreateDone rag :
    LightRAG_new (now self) ("course_" ++ course_id) = Some rag ->
    initialize_storages (S (now self)) rag = true ->
    create_outcome course_id self (Ok rag) (registered course_id rag self).

End Manager.

Arguments RAGManager : clear implicits.

(* ------------------------------------------------------------------ *)
(** ** A concrete engine for examples: the engine is its namespace, the
    constructor raises for the course "bad", and [finalize_storages]
    raises for the engine of the course "leaky". *)

Module Demo.
Definition engine : Type := string.

Definition api : EngineAPI engine :=
  {| LightRAG_new := fun _ ns =>
       if String.eqb ns "course_bad" then None else Some ns;
     initialize_storages := fun _ _ => true;
     finalize_storages := fun _ e => negb (String.eqb e "course_leaky") |}.

Definition fresh (cap : Z) : RAGManager engine := RAGManager_init cap.
Definition run := @run_ops engine api.

(** Capacity 2 after get A, get B: both counts are 1. *)
Definition tied : RAGManager engine := run [OpGet "A"; OpGet "B"] (fresh 2).

(** Capacity 2 after get A, get A, get B: A has count 2 and B has 1. *)
Definition skewed : RAGManager engine :=
  run [OpGet "A"; OpGet "A"; OpGet "B"] (fresh 2).

(** Capacity 1, full, and the only resident engine cannot be finalized. *)
Definition stuck : RAGManager engine := run [OpGet "leaky"] (fresh 1).

(** Capacity 3 with one resident course. *)
Definition roomy : RAGManager engine := run [OpGet "A"] (fresh 3).

(** Capacity 0 after a few attempts. *)
Definition closed : RAGManager engine :=
  run [OpGet "A"; OpPreload ["x"; "y"]; OpSwitch "B"] (fresh 0).

Definition buildable (c : string) : bool := negb (String.eqb c "bad").
End Demo.

(* ------------------------------------------------------------------ *)
(** ** The route layer

    [src/lightrag/api/routers/graph_routes.py].  A handler either returns a
    value or lets an exception leave it; FastAPI's own work (query
    validation, authentication, serialisation) is not part of the model. *)

(** The engine queries the graph routes pass through to; [None] stands for
    a raised exception.  The [nat] is the moment of the call. *)
Class QueryAPI (LightRAG : Type) : Type := {
  labels : Type;
  knowledge_graph : Type;
  node_edges : Type;
  node : Type;
  relationship : Type;
  get_graph_labels : nat -> LightRAG -> option labels;
  get_knowledge_graph : nat -> LightRAG -> string -> Z -> Z -> option knowledge_graph;
  get_node_edges : nat -> LightRAG -> string -> option node_edges;
  get_nodes_and_relationships_by_file_path :
    nat -> LightRAG -> string -> option (list node * list relationship)
}.

(** What can leave a handler: an exception of the manager, an exception of
    an engine query, or an [HTTPException]; the detail of an
    [HTTPException] is the text written on line 129 or the [str] of a
    caught exception (line 137). *)
Inductive route_exn : Type :=
| ManagerRaised (e : exn)
| QueryRaised
| HTTPException (status_code : Z) (detail : http_detail)
with http_detail : Type :=
| NoNodesFound (source_id : string)
| StrOf (e : route_exn).

Inductive reply (A : Type) : Type :=
| Return (a : A)
| Escape (e : route_exn).
Arguments Return {A} a.
Arguments Escape {A} e.

Definition status_of {A : Type} (r : reply A) : option Z :=
  match r with
  | Escape (HTTPException status_code _) => Some status_code
  | _ => None
  end.

Section Routes.

Context {LightRAG : Type} {api : EngineAPI LightRAG} {queries : QueryAPI LightRAG}.

Definition Handler (A : Type) : Type :=
  RAGManager LightRAG -> reply A * RAGManager LightRAG.

(** [rag = await rag_manager.get_rag(course_id)] followed by one awaited
    query on [rag], with no [try] around them: lines 29-30, 54-59, 77-80. *)
Definition pass_through {A : Type} (course_id : string)
    (query : nat -> LightRAG -> option A) : Handler A :=
  fun self =>
    match get_rag course_id self with
    | (Raise e, self1) => (Escape (ManagerRaised e), self1)
    | (Ok rag, self1) =>
        match query (now self1) rag with
        | Some a => (Return a, self1)
        | None => (Escape QueryRaised, self1)
        end
    end.

Definition route_get_graph_labels (course_id : string) : Handler labels :=
  pass_through course_id get_graph_labels.

Definition route_get_knowledge_graph (course_id label : string)
    (max_depth max_nodes : Z) : Handler knowledge_graph :=
  pass_through course_id
    (fun t rag => get_knowledge_graph t rag label max_depth max_nodes).

Definition route_get_node_neighbors (course_id node_id : string) : Handler node_edges :=
  pass_through course_id (fun t rag => get_node_edges t rag node_id).

(** Lines 121-135: the body of the [try] of [get_source_graph]; building
    the [SourceGraphResponse] from a non-empty node list is taken to succeed. *)
Definition source_graph_body (source_id course_id : string)
  : Handler (list node * list relationship) :=
  fun self =>
    match get_rag course_id self with
    | (Raise e, self1) => (Escape (ManagerRaised e), self1)
    | (Ok rag, self1) =>
        match get_nodes_and_relationships_by_file_path (now self1) rag source_id with
        | None => (Escape QueryRaised, self1)
        | Some (nodes, relationships) =>
            match nodes with
            | [] => (Escape (HTTPException 404 (NoNodesFound source_id)), self1)
            | _ :: _ => (Return (nodes, relationships), self1)
            end
        end
    end.

(** Lines 120-137: [except Exception as e: raise HTTPException(500, str(e))];
    [HTTPException] is itself a subclass of [Exception]. *)
Definition route_get_source_graph (source_id course_id : string)
  : Handler (list node * list relationship) :=
  fun self =>
    match source_graph_body source_id course_id self with
    | (Return a, self1) => (Return a, self1)
    | (Escape e, self1) => (Escape (HTTPException 500 (StrOf e)), self1)
    end.

(** Requests to the graph routes, and the manager state they leave. *)
Inductive request : Type :=
| ReqLabels (course_id : string)
| ReqGraph (course_id label : string) (max_depth max_nodes : Z)
| ReqNeighbors (course_id node_id : string)
| ReqSource (source_id course_id : string).

Definition request_course (r : request) : string :=
  match r with
  | ReqLabels c | ReqGraph c _ _ _ | ReqNeighbors c _ | ReqSource _ c => c
  end.

Definition serve (r : request) (self : RAGManager LightRAG) : RAGManager LightRAG :=
  match r with
  | ReqLabels c => snd (route_get_graph_labels c self)
  | ReqGraph c l d n => snd (route_get_knowledge_graph c l d n self)
  | ReqNeighbors c n => snd (route_get_node_neighbors c n self)
  | ReqSource s c => snd (route_get_source_graph s c self)
  end.

Definition serve_all (rs : list request) (self : RAGManager LightRAG)
  : RAGManager LightRAG :=
  fold_left (fun s r => serve r s) rs self.

End Routes.

(** A query engine for examples: a source has nodes exactly when its id is
    "doc"; every other query answers. *)
Module DemoRoutes.
Definition queries : QueryAPI Demo.engine :=
  {| labels := list string;
     knowledge_graph := unit;
     node_edges := unit;
     node := string;
     relationship := string;
     get_graph_labels := fun _ _ => Some ["entity"];
     get_knowledge_graph := fun _ _ _ _ _ => Some tt;
     get_node_edges := fun _ _ _ => Some tt;
     get_nodes_and_relationships_by_file_path := fun _ _ source_id =>
       if String.eqb source_id "doc" then Some (["n1"], ["r1"]) else Some ([], []) |}.

(** Capacity 2, courses A (count 3) and B (count 1). *)
Definition warm : RAGManager Demo.engine :=
  Demo.run [OpGet "A"; OpGet "B"; OpGet "A"; OpGet "A"] (Demo.fresh 2).

(** Capacity 2, full, and the next course cannot be built. *)
Definition crowded : RAGManager Demo.engine :=
  Demo.run [OpGet "A"; OpGet "B"] (Demo.fresh 2).

(** A manager built with a negative capacity. *)
Definition inverted : RAGManager Demo.engine :=
  Demo.run [OpGet "A"] (Demo.fresh (-1)).

(** Capacity 2 with the one course A, used once. *)
Definition single : RAGManager Demo.engine := Demo.run [OpGet "A"] (Demo.fresh 2).
End DemoRoutes.

(* ------------------------------------------------------------------ *)
(** ** Facts about dictionaries *)

Module DictFacts.
Section Facts.
Context {V : Type}.
Implicit Types (d : Dict.t V) (k : string) (v : V).

Lemma get_None d k : Dict.get d k = None <-> ~ In k (Dict.keys d).
Proof.
  induction d as [|[k' v'] r IH]; simpl.
  - tauto.
  - destruct (String.eqb_spec k k') as [->|Hne].
    + split; [discriminate | intros H; exfalso; apply H; now left].
    + rewrite IH. split; intros H; [intros [E|E]; [congruence | tauto] | tauto].
Qed.

Lemma get_Some_in d k v : Dict.get d k = Some v -> In k (Dict.keys d).
Proof.
  intros H. destruct (in_dec string_dec k (Dict.keys d)) as [Hin|Hout]; auto.
  apply get_None in Hout. congruence.
Qed.

Lemma contains_true d k : Dict.contains d k = true <-> In k (Dict.keys d).
Proof.
  unfold Dict.contains. destruct (Dict.get d k) eqn:E.
  - split; auto. intros _. eapply get_Some_in; eauto.
  - apply get_None in E. split; [discriminate | tauto].
Qed.

Lemma contains_false d k : Dict.contains d k = false <-> ~ In k (Dict.keys d).
Proof.
  rewrite <- contains_true. destruct (Dict.contains d k); split; congruence.
Qed.

Lemma in_item_contains d k v : In (k, v) d -> Dict.contains d k = true.
Proof.
  intros H. apply contains_true. unfold Dict.keys.
  change k with (fst (k, v)). now apply in_map.
Qed.

(** Assignment to a missing key appends; to a present key keeps the keys. *)
Lemma set_new d k v : ~ In k (Dict.keys d) -> Dict.set d k v = (d ++ [(k, v)])%list.
Proof.
  induction d as [|[k' v'] r IH]; simpl; intros H; auto.
  destruct (String.eqb_spec k k') as [->|Hne]; [tauto|].
  rewrite IH; tauto.
Qed.

Lemma keys_set_old d k v : In k (Dict.keys d) -> Dict.keys (Dict.set d k v) = Dict.keys d.
Proof.
  induction d as [|[k' v'] r IH]; simpl; intros H; [tauto|].
  destruct (String.eqb_spec k k') as [->|Hne]; simpl; auto.
  rewrite IH; auto. destruct H; congruence.
Qed.

(** Deletion acts on the keys alone. *)
Lemma keys_del d k : NoDup (Dict.keys d) ->
  Dict.keys (Dict.del d k) = remove string_dec k (Dict.keys d).
Proof.
  induction d as [|[k' v'] r IH]; simpl; intros H; auto.
  inversion H as [|? ? Hout Hnd]; subst.
  destruct (String.eqb_spec k k') as [->|Hne].
  - destruct (string_dec k' k'); [|congruence].
    symmetry. now apply notin_remove.
  - destruct (string_dec k k'); [congruence|]. simpl. now rewrite IH.
Qed.

End Facts.
End DictFacts.

(** Python's [min] returns a least item and, among the least, the first. *)
Lemma min_from_first_least (items : list (string * Z)) : forall best,
  exists before after,
    best :: items = (before ++ min_from best items :: after)%list /\
    Forall (fun kv => snd (min_from best items) < snd kv) before /\
    Forall (fun kv => snd (min_from best items) <= snd kv) after.
Proof.
  induction items as [|x r IH]; intros best; simpl.
  - exists [], []. repeat split; constructor.
  - destruct (Z.ltb_spec (snd x) (snd best)) as [Hlt|Hge].
    + destruct (IH x) as (before & after & E & Hb & Ha).
      remember (min_from x r) as m eqn:Hm. clear Hm IH.
      exists (best :: before), after. repeat split; auto.
      * simpl. now rewrite E.
      * constructor; auto.
        destruct before as [|y before']; simpl in E; inversion E; subst.
        -- lia.
        -- inversion Hb; subst. lia.
    + destruct (IH best) as (before & after & E & Hb & Ha).
      remember (min_from best r) as m eqn:Hm. clear Hm IH.
      destruct before as [|y before']; simpl in E; inversion E; subst.
      * exists [], (x :: after). repeat split; auto.
      * exists (y :: x :: before'), after. repeat split; auto.
        inversion Hb; subst. constructor; auto. constructor; auto. lia.
Qed.

Lemma py_min_first_least (items : list (string * Z)) (v : string) (n : Z) :
  py_min items = Some (v, n) ->
  exists before after,
    items = (before ++ (v, n) :: after)%list /\
    Forall (fun kv => n < snd kv) before /\
    Forall (fun kv => n <= snd kv) after.
Proof.
  destruct items as [|x r]; simpl; [discriminate|].
  intros H. injection H as H.
  destruct (min_from_first_least r x) as (before & after & E & Hb & Ha).
  rewrite H in *. simpl in *. eauto.
Qed.

Lemma py_min_in (items : list (string * Z)) (v : string) (n : Z) :
  py_min items = Some (v, n) -> In (v, n) items.
Proof.
  intros H. destruct (py_min_first_least _ _ _ H) as (b & a & -> & _).
  apply in_or_app. right. now left.
Qed.

(* ------------------------------------------------------------------ *)
(** ** Outcomes of the blocks of [initialize_course] *)

(** Solve the leading conjuncts that are hypotheses or hold by computation. *)
Ltac conj_steps := repeat (split; [solve [assumption | reflexivity] |]).

Section Properties.
Context {LightRAG : Type} {api : EngineAPI LightRAG}.
Implicit Types (self : RAGManager LightRAG) (c : string).

Lemma now_emit ev self : now (emit ev self) = S (now self).
Proof. unfold now, emit; simpl. rewrite length_app; simpl. lia. Qed.

Lemma evict_least_used_outcome self :
  evict_outcome self (fst (evict_least_used self)) (snd (evict_least_used self)).
Proof.
  unfold evict_least_used, bind, get_self.
  destruct (Dict.len (rag_instances self) >=? max_preloaded self) eqn:Hfull.
  - apply Z.geb_le in Hfull.
    destruct (py_min (course_access_count self)) as [[v n]|] eqn:Hmin.
    + pose proof (DictFacts.in_item_contains _ _ _ (py_min_in _ _ _ Hmin)) as Hc.
      cbn [fst]. unfold getitem_rag_instances, bind, get_self.
      destruct (Dict.get (rag_instances self) v) as [rag|] eqn:Hget.
      * unfold ret, call_finalize_storages.
        destruct (finalize_storages (now self) rag) eqn:Hfin.
        -- unfold delitem_rag_instances, delitem_course_access_count,
             bind, get_self, modify. cbn.
           assert (Hc' : Dict.contains (rag_instances self) v = true)
             by (unfold Dict.contains; now rewrite Hget).
           rewrite Hc'. cbn. rewrite Hc. cbn.
           eapply EvictDone; eauto.
        -- cbn. eapply EvictFinalizeRaises; eauto.
      * cbn. eapply EvictUnknown; eauto.
    + cbn. now apply EvictNothing.
  - cbn. apply EvictRoom. rewrite Z.geb_leb in Hfull.
    apply Z.leb_gt in Hfull. lia.
Qed.

Lemma create_instance_outcome c self :
  create_outcome c self (fst (create_instance c self)) (snd (create_instance c self)).
Proof.
  unfold create_instance, bind, call_LightRAG.
  destruct (LightRAG_new (now self) ("course_" ++ c)) as [rag|] eqn:Hnew.
  - unfold call_initialize_storages. rewrite now_emit.
    destruct (initialize_storages (S (now self)) rag) eqn:Hinit.
    + cbn. now apply CreateDone.
    + cbn. now apply (CreateInitializeRaises c self rag).
  - cbn. now apply CreateConstructRaises.
Qed.

Lemma initialize_course_unfold c self :
  initialize_course c self =
  match Dict.get (rag_instances self) c with
  | Some rag => (Ok rag, self)
  | None =>
      match evict_least_used self with
      | (Ok _, self1) => create_instance c self1
      | (Raise e, self1) => (Raise e, self1)
      end
  end.
Proof.
  unfold initialize_course, bind, get_self.
  now destruct (Dict.get (rag_instances self) c).
Qed.

(** ** Preservation of the invariant *)

Lemma NoDup_remove_key (x : string) (l : list string) :
  NoDup l -> NoDup (remove string_dec x l).
Proof.
  induction 1 as [|y l Hy Hnd IH]; simpl; [constructor|].
  destruct (string_dec x y); auto.
  constructor; auto. intros Hin. apply in_remove in Hin. tauto.
Qed.

Lemma length_remove_key (x : string) (l : list string) :
  NoDup l -> In x l -> S (length (remove string_dec x l)) = length l.
Proof.
  induction 1 as [|y l Hy Hnd IH]; simpl; [tauto|].
  intros [->|Hin].
  - destruct (string_dec x x); [|congruence]. now rewrite notin_remove.
  - destruct (string_dec x y) as [->|Hne]; [tauto|]. simpl. now rewrite IH.
Qed.

Lemma len_resident self : Dict.len (rag_instances self) = Z.of_nat (length (resident self)).
Proof. unfold Dict.len, resident, Dict.keys. now rewrite length_map. Qed.

Lemma pool_inv_init cap : pool_inv (RAGManager_init (LightRAG := LightRAG) cap).
Proof. split; cbn; [reflexivity | constructor | lia]. Qed.

Lemma pool_inv_emit ev self : pool_inv self -> pool_inv (emit ev self).
Proof. intros [Ha Hn Hc]. split; auto. Qed.

Lemma resident_evicted v self :
  NoDup (resident self) ->
  resident (evicted v self) = remove string_dec v (resident self).
Proof. intros H. unfold resident, evicted. cbn. now apply DictFacts.keys_del. Qed.

Lemma tracked_evicted v self :
  NoDup (tracked self) ->
  tracked (evicted v self) = remove string_dec v (tracked self).
Proof. intros H. unfold tracked, evicted. cbn. now apply DictFacts.keys_del. Qed.

Lemma evict_outcome_inv self r self' :
  evict_outcome self r self' -> pool_inv self ->
  pool_inv self' /\
  max_preloaded self' = max_preloaded self /\
  (forall k, In k (resident self') -> In k (resident self)) /\
  (r = Ok tt -> Dict.len (rag_instances self') < max_preloaded self').
Proof.
  intros Hout Hinv. destruct Hinv as [Ha Hn Hc].
  inversion Hout; subst; clear Hout.
  - repeat split; auto.
  - repeat split; auto. discriminate.
  - repeat split; auto. discriminate.
  - repeat split; auto. discriminate.
  - assert (Hin : In v (resident self)) by (eapply DictFacts.get_Some_in; eauto).
    assert (Hr : resident (evicted v self) = remove string_dec v (resident self))
      by now apply resident_evicted.
    assert (Ht : tracked (evicted v self) = remove string_dec v (tracked self))
      by (apply tracked_evicted; now rewrite <- Ha).
    pose proof (length_remove_key v _ Hn Hin) as Hlen.
    assert (Hsmall : Dict.len (rag_instances (evicted v self)) < max_preloaded self).
    { rewrite len_resident in *. rewrite Hr. lia. }
    repeat split; auto.
    + now rewrite Hr, Ht, Ha.
    + rewrite Hr. now apply NoDup_remove_key.
    + change (max_preloaded (evicted v self)) with (max_preloaded self). lia.
    + intros k. rewrite Hr. intros Hk. now apply in_remove in Hk.
Qed.

Lemma registered_fresh c rag self :
  resident self = tracked self -> ~ In c (resident self) ->
  rag_instances (registered c rag self) = (rag_instances self ++ [(c, rag)])%list /\
  course_access_count (registered c rag self) =
    (course_access_count self ++ [(c, 0)])%list.
Proof.
  intros Ha Hc. unfold registered. cbn. split.
  - now apply DictFacts.set_new.
  - apply DictFacts.set_new. change (~ In c (tracked self)). now rewrite <- Ha.
Qed.

Lemma create_outcome_inv c self r self' :
  create_outcome c self r self' -> pool_inv self ->
  ~ In c (resident self) ->
  Dict.len (rag_instances self) < max_preloaded self ->
  pool_inv self' /\
  max_preloaded self' = max_preloaded self /\
  match r with
  | Ok rag =>
      rag_instances self' = (rag_instances self ++ [(c, rag)])%list /\
      course_access_count self' = (course_access_count self ++ [(c, 0)])%list
  | Raise _ =>
      rag_instances self' = rag_instances self /\
      course_access_count self' = course_access_count self
  end.
Proof.
  intros Hout Hinv Hc Hroom. destruct Hinv as [Ha Hn Hcap].
  inversion Hout; subst; clear Hout.
  - repeat split; auto.
  - repeat split; auto.
  - destruct (registered_fresh c rag self Ha Hc) as [Er Et].
    repeat split; auto.
    + unfold resident, tracked, Dict.keys in *. rewrite Er, Et, !map_app.
      now rewrite Ha.
    + unfold resident, Dict.keys in *. rewrite Er, map_app. cbn.
      apply NoDup_app; [auto | repeat constructor; auto | ].
      intros a Hin [<-|[]]. tauto.
    + unfold Dict.len in *. rewrite Er, length_app. cbn [length].
      cbn [max_preloaded registered emit set_course_access_count set_rag_instances].
      lia.
Qed.

Lemma get_app_new {V : Type} (d : Dict.t V) (k : string) (v : V) :
  ~ In k (Dict.keys d) -> Dict.get (d ++ [(k, v)])%list k = Some v.
Proof.
  induction d as [|[k' v'] r IH]; simpl; intros H.
  - now rewrite String.eqb_refl.
  - destruct (String.eqb_spec k k') as [->|Hne]; [tauto|]. apply IH. tauto.
Qed.

Lemma initialize_course_inv c self :
  pool_inv self ->
  pool_inv (snd (initialize_course c self)) /\
  max_preloaded (snd (initialize_course c self)) = max_preloaded self /\
  match fst (initialize_course c self) with
  | Ok rag => Dict.get (rag_instances (snd (initialize_course c self))) c = Some rag
  | Raise _ => ~ In c (resident self) ->
               ~ In c (resident (snd (initialize_course c self)))
  end.
Proof.
  intros Hinv. rewrite initialize_course_unfold.
  destruct (Dict.get (rag_instances self) c) as [rag|] eqn:Hget;
    [cbn [fst snd]; auto|].
  apply DictFacts.get_None in Hget.
  pose proof (evict_least_used_outcome self) as Hev.
  destruct (evict_least_used self) as [[[]|e] self1]; cbn [fst snd] in Hev.
  - destruct (evict_outcome_inv _ _ _ Hev Hinv) as (Hinv1 & Hmax1 & Hsub & Hroom).
    assert (Hc1 : ~ In c (resident self1)) by (intros H; apply Hget, Hsub, H).
    pose proof (create_instance_outcome c self1) as Hcr.
    destruct (create_instance c self1) as [r self2]; cbn [fst snd] in Hcr |- *.
    destruct (create_outcome_inv _ _ _ _ Hcr Hinv1 Hc1 (Hroom eq_refl))
      as (Hinv2 & Hmax2 & Hres).
    split; [auto|]. split; [congruence|].
    destruct r as [rag|e]; destruct Hres as [Er Et].
    + rewrite Er. now apply get_app_new.
    + intros _. unfold resident. now rewrite Er.
  - destruct (evict_outcome_inv _ _ _ Hev Hinv) as (Hinv1 & Hmax1 & Hsub & _).
    cbn [fst snd]. split; [auto|]. split; auto.
Qed.

Lemma get_rag_unfold c self :
  get_rag c self =
  let finish s :=
    match Dict.get (rag_instances s) c with
    | Some rag => (Ok rag, touched c s)
    | None => (Raise (KeyError c), touched c s)
    end in
  if Dict.contains (rag_instances self) c then finish self
  else match initialize_course c self with
       | (Ok _, self1) => finish self1
       | (Raise e, self1) => (Raise e, self1)
       end.
Proof.
  unfold get_rag, getitem_rag_instances, bind, get_self, modify, ret, raise.
  destruct (Dict.contains (rag_instances self) c); cbn [negb].
  - cbn [rag_instances touched set_course_access_count].
    now destruct (Dict.get (rag_instances self) c).
  - destruct (initialize_course c self) as [[rag|e] self1]; auto.
    cbn [rag_instances touched set_course_access_count].
    now destruct (Dict.get (rag_instances self1) c).
Qed.

Lemma pool_inv_touched c self :
  pool_inv self -> In c (resident self) -> pool_inv (touched c self).
Proof.
  intros [Ha Hn Hc] Hin. split; auto.
  change (resident self = Dict.keys (Dict.set (course_access_count self) c
    (Dict.get_default (course_access_count self) c 0 + 1))).
  rewrite DictFacts.keys_set_old; auto.
  change (In c (tracked self)). now rewrite <- Ha.
Qed.

Lemma get_rag_inv c self :
  pool_inv self ->
  pool_inv (snd (get_rag c self)) /\
  max_preloaded (snd (get_rag c self)) = max_preloaded self /\
  match fst (get_rag c self) with
  | Ok rag => Dict.get (rag_instances (snd (get_rag c self))) c = Some rag
  | Raise _ => ~ In c (resident self) /\ ~ In c (resident (snd (get_rag c self)))
  end.
Proof.
  intros Hinv. rewrite get_rag_unfold. cbv zeta.
  destruct (Dict.contains (rag_instances self) c) eqn:Hc.
  - apply DictFacts.contains_true in Hc.
    destruct (Dict.get (rag_instances self) c) as [rag|] eqn:Hget.
    + cbn [fst snd]. split; [now apply pool_inv_touched|]. split; auto.
    + apply DictFacts.get_None in Hget. tauto.
  - apply DictFacts.contains_false in Hc.
    destruct (initialize_course_inv c self Hinv) as (Hinv1 & Hmax1 & Hres).
    destruct (initialize_course c self) as [[rag|e] self1]; cbn [fst snd] in *.
    + rewrite Hres. cbn [fst snd]. split; [|split; auto].
      apply pool_inv_touched; auto. eapply DictFacts.get_Some_in; eauto.
    + split; [auto|]. split; auto.
Qed.

(** ** [preload_courses], [switch_course], [cleanup] *)

Lemma preload_courses_unfold ids self :
  preload_courses ids self =
  let tasks := map initialize_course (slice_to (max_preloaded self) ids) in
  match gather tasks self with
  | (Ok _, self1) =>
      (Ok tt, emit (EvLog INFO (MsgPreloaded (Z.of_nat (length tasks)))) self1)
  | (Raise e, self1) => (Raise e, self1)
  end.
Proof.
  unfold preload_courses, bind, get_self, logger, modify. cbv zeta.
  now destruct (gather _ self) as [[[]|e] self1].
Qed.

Lemma gather_initialize_inv ids : forall self,
  pool_inv self ->
  pool_inv (snd (gather (map initialize_course ids) self)) /\
  max_preloaded (snd (gather (map initialize_course ids) self)) = max_preloaded self.
Proof.
  induction ids as [|c ids IH]; intros self Hinv; cbn [map gather].
  - now split.
  - destruct (initialize_course_inv c self Hinv) as (Hinv1 & Hmax1 & _).
    destruct (initialize_course c self) as [[rag|e] self1]; cbn [fst snd] in *.
    + destruct (IH self1 Hinv1) as (Hinv2 & Hmax2). split; congruence.
    + now split.
Qed.

Lemma preload_courses_inv ids self :
  pool_inv self ->
  pool_inv (snd (preload_courses ids self)) /\
  max_preloaded (snd (preload_courses ids self)) = max_preloaded self.
Proof.
  intros Hinv. rewrite preload_courses_unfold. cbv zeta.
  destruct (gather_initialize_inv (slice_to (max_preloaded self) ids) self Hinv)
    as (Hinv1 & Hmax1).
  destruct (gather _ self) as [[[]|e] self1]; cbn [fst snd] in *; split; auto.
  now apply pool_inv_emit.
Qed.

Lemma switch_course_unfold c self :
  switch_course c self =
  match get_rag c self with
  | (Ok _, self') => (Ok true, self')
  | (Raise e, self') => (Ok false, emit (EvLog ERROR (MsgSwitchFailed c e)) self')
  end.
Proof.
  unfold switch_course, try_except, bind, logger, modify, ret.
  now destruct (get_rag c self) as [[rag|e] self'].
Qed.

Lemma switch_course_inv c self :
  pool_inv self ->
  pool_inv (snd (switch_course c self)) /\
  max_preloaded (snd (switch_course c self)) = max_preloaded self.
Proof.
  intros Hinv. rewrite switch_course_unfold.
  destruct (get_rag_inv c self Hinv) as (Hinv1 & Hmax1 & _).
  destruct (get_rag c self) as [[rag|e] self']; cbn [fst snd] in *; split; auto.
  now apply pool_inv_emit.
Qed.

(** The loop of [cleanup] never raises and only extends the trace. *)
Lemma cleanup_loop_run items : forall self,
  cleanup_loop items self =
  (Ok tt, {| rag_instances := rag_instances self;
             max_preloaded := max_preloaded self;
             course_access_count := course_access_count self;
             trace := trace self ++ cleanup_events (now self) items |}).
Proof.
  induction items as [|[c rag] rest IH]; intros self.
  - cbn. rewrite app_nil_r. now destruct self.
  - cbn [cleanup_loop cleanup_events].
    unfold bind, try_except, call_finalize_storages, logger, modify.
    destruct (finalize_storages (now self) rag); rewrite IH;
      rewrite !now_emit; cbn; now rewrite <- !app_assoc.
Qed.

Lemma cleanup_run self :
  cleanup self =
  (Ok tt, {| rag_instances := [];
             max_preloaded := max_preloaded self;
             course_access_count := [];
             trace := trace self ++ cleanup_events (now self) (rag_instances self) |}).
Proof.
  unfold cleanup, bind, get_self. rewrite cleanup_loop_run. reflexivity.
Qed.

Lemma cleanup_inv self :
  pool_inv (snd (cleanup self)) /\
  max_preloaded (snd (cleanup self)) = max_preloaded self.
Proof.
  rewrite cleanup_run. cbn. split; auto.
  split; cbn; [reflexivity | constructor | lia].
Qed.

(** ** Every reachable state satisfies the invariant *)

Lemma run_op_inv o self :
  pool_inv self ->
  pool_inv (run_op o self) /\ max_preloaded (run_op o self) = max_preloaded self.
Proof.
  intros Hinv. destruct o as [c|ids|c|c|]; cbn [run_op].
  - destruct (initialize_course_inv c self Hinv) as (H1 & H2 & _). now split.
  - now apply preload_courses_inv.
  - destruct (get_rag_inv c self Hinv) as (H1 & H2 & _). now split.
  - now apply switch_course_inv.
  - apply cleanup_inv.
Qed.

Lemma run_ops_inv ops : forall self,
  pool_inv self ->
  pool_inv (run_ops ops self) /\ max_preloaded (run_ops ops self) = max_preloaded self.
Proof.
  induction ops as [|o ops IH]; intros self Hinv; cbn.
  - now split.
  - destruct (run_op_inv o self Hinv) as (H1 & H2).
    destruct (IH _ H1) as (H3 & H4). split; auto.
    unfold run_ops in H4. congruence.
Qed.

Lemma reachable_inv cap self :
  reachable cap self -> pool_inv self /\ max_preloaded self = cap.
Proof.
  intros [ops ->]. apply (run_ops_inv ops (RAGManager_init cap)), pool_inv_init.
Qed.

(* ---------------------------------------------------------------- *)
(** ** Capacity and bookkeeping invariants *)

(** C4.  Starting from a freshly constructed manager whose
    [max_preloaded] is at least 1, after any sequence of operations
    ([initialize_course], [preload_courses], [get_rag], [switch_course],
    [cleanup]; whether they return or raise) the number of resident
    engines is at most [max_preloaded]. *)
Theorem resident_count_within_capacity (cap : Z) (ops : list op) :
  1 <= cap ->
  Dict.len (rag_instances (run_ops ops (RAGManager_init (LightRAG := LightRAG) cap)))
    <= cap.
Proof.
  intros Hcap.
  destruct (run_ops_inv ops (RAGManager_init cap) (pool_inv_init cap))
    as ([_ _ Hlen] & Hmax).
  rewrite Hmax in Hlen. cbn in Hlen. lia.
Qed.

(** C5.  After any sequence of operations on a freshly constructed
    manager, [rag_instances] and [course_access_count] have the same
    keys: the same set, and even the same keys in the same dict order. *)
Theorem pool_and_tracker_keys_agree (cap : Z) (ops : list op) (k : string) :
  (In k (resident (run_ops ops (RAGManager_init (LightRAG := LightRAG) cap))) <->
   In k (tracked (run_ops ops (RAGManager_init (LightRAG := LightRAG) cap)))) /\
  resident (run_ops ops (RAGManager_init (LightRAG := LightRAG) cap)) =
  tracked (run_ops ops (RAGManager_init (LightRAG := LightRAG) cap)).
Proof.
  destruct (run_ops_inv ops (RAGManager_init cap) (pool_inv_init cap))
    as ([Ha _ _] & _).
  rewrite Ha. tauto.
Qed.

(* ---------------------------------------------------------------- *)
(** ** Eviction *)


Lemma tracked_touched c self :
  In c (tracked self) -> tracked (touched c self) = tracked self.
Proof. intros H. unfold tracked, touched. cbn. now apply DictFacts.keys_set_old. Qed.

(** An admission into a full pool, step by step. *)
Lemma initialize_course_full c self rag self' :
  pool_inv self ->
  ~ In c (resident self) ->
  max_preloaded self <= Dict.len (rag_instances self) ->
  initialize_course c self = (Ok rag, self') ->
  exists victim n,
    py_min (course_access_count self) = Some (victim, n) /\
    In victim (resident self) /\
    self' = registered c rag (evicted victim self) /\
    rag_instances self' =
      (Dict.del (rag_instances self) victim ++ [(c, rag)])%list /\
    course_access_count self' =
      (Dict.del (course_access_count self) victim ++ [(c, 0)])%list.
Proof.
  intros Hinv Hc Hfull Hrun. rewrite initialize_course_unfold in Hrun.
  destruct (Dict.get (rag_instances self) c) eqn:Hget.
  { apply DictFacts.get_Some_in in Hget. tauto. }
  pose proof (evict_least_used_outcome self) as Hev.
  destruct (evict_least_used self) as [[[]|e] self1]; [|discriminate].
  cbn [fst snd] in Hev.
  destruct (evict_outcome_inv _ _ _ Hev Hinv) as (Hinv1 & Hmax1 & Hsub & Hroom).
  inversion Hev as [Hlt| | | |v n rag0 _ Hmin Hv Hfin]; subst; [lia|].
  pose proof (create_instance_outcome c (evicted v self)) as Hcr.
  rewrite Hrun in Hcr. cbn [fst snd] in Hcr.
  assert (Hc1 : ~ In c (resident (evicted v self))) by (intros H; apply Hc, Hsub, H).
  inversion Hcr as [| |rag1 Hnew Hinit]; subst.
  destruct (registered_fresh c rag (evicted v self) (inv_aligned _ Hinv1) Hc1)
    as [Er Et].
  exists v, n. repeat split; auto.
  eapply DictFacts.get_Some_in; eauto.
Qed.



(** C2 (as the code has it).  When the pool is full and the engine of the
    selected victim raises in [finalize_storages], nothing catches the
    exception: [initialize_course] and [get_rag] raise it to their caller
    without logging, the victim stays in [rag_instances] and in
    [course_access_count], and the new course is not admitted; the only
    effect is the attempted finalize call. *)
Theorem eviction_finalize_failure_propagates
    (self : RAGManager LightRAG) (c victim : string) (n : Z) (rag : LightRAG) :
  ~ In c (resident self) ->
  max_preloaded self <= Dict.len (rag_instances self) ->
  py_min (course_access_count self) = Some (victim, n) ->
  Dict.get (rag_instances self) victim = Some rag ->
  finalize_storages (now self) rag = false ->
  initialize_course c self = (Raise FinalizeError, emit (EvFinalize victim) self) /\
  get_rag c self = (Raise FinalizeError, emit (EvFinalize victim) self) /\
  In victim (resident (snd (get_rag c self))) /\
  In victim (tracked (snd (get_rag c self))) /\
  ~ In c (resident (snd (get_rag c self))).
Proof.
  intros Hc Hfull Hmin Hget Hfin.
  assert (Hini : initialize_course c self =
                 (Raise FinalizeError, emit (EvFinalize victim) self)).
  { rewrite initialize_course_unfold.
    apply DictFacts.get_None in Hc. rewrite Hc.
    pose proof (evict_least_used_outcome self) as Hev.
    destruct (evict_least_used self) as [r self1]. cbn [fst snd] in Hev.
    inversion Hev; subst; try lia; congruence. }
  assert (Hgetrag : get_rag c self =
                    (Raise FinalizeError, emit (EvFinalize victim) self)).
  { rewrite get_rag_unfold. cbv zeta.
    apply DictFacts.contains_false in Hc. now rewrite Hc, Hini. }
  rewrite Hgetrag. cbn [fst snd]. repeat split; auto.
  - change (In victim (resident self)). eapply DictFacts.get_Some_in; eauto.
  - change (In victim (tracked self)).
    apply DictFacts.contains_true. eapply DictFacts.in_item_contains.
    apply py_min_in. eauto.
Qed.

(* ---------------------------------------------------------------- *)
(** ** Failures of the engine factory *)

(** Whatever makes [get_rag] raise for a course that is not resident, the
    course is in neither dict afterwards. *)
Lemma get_rag_failure_leaves_absent cap self c e :
  reachable cap self ->
  ~ In c (resident self) ->
  fst (get_rag c self) = Raise e ->
  ~ In c (resident (snd (get_rag c self))) /\
  ~ In c (tracked (snd (get_rag c self))).
Proof.
  intros Hreach Hc Hfst.
  destruct (reachable_inv _ _ Hreach) as [Hinv _].
  destruct (get_rag_inv c self Hinv) as (Hinv' & _ & Hres).
  rewrite Hfst in Hres. destruct Hres as [_ Hout].
  split; auto. now rewrite <- (inv_aligned _ Hinv').
Qed.

(** C6.  Let [c] be a course that is not resident, and let the capacity
    step of [initialize_course] complete, leaving state [self1] (there was
    room, or a victim was evicted).  If the LightRAG constructor raises,
    or [initialize_storages] raises on the new engine, then [get_rag]
    raises that same exception and [c] is a key of neither
    [rag_instances] nor [course_access_count] afterwards. *)
Theorem get_rag_construction_failure
    (cap : Z) (self self1 : RAGManager LightRAG) (c : string) (e : exn) :
  reachable cap self ->
  ~ In c (resident self) ->
  evict_least_used self = (Ok tt, self1) ->
  (LightRAG_new (now self1) ("course_" ++ c) = None /\ e = ConstructError) \/
  (exists rag, LightRAG_new (now self1) ("course_" ++ c) = Some rag /\
               initialize_storages (S (now self1)) rag = false /\
               e = InitializeError) ->
  fst (get_rag c self) = Raise e /\
  ~ In c (resident (snd (get_rag c self))) /\
  ~ In c (tracked (snd (get_rag c self))).
Proof.
  intros Hreach Hc Hev Hfail.
  assert (Hfst : fst (get_rag c self) = Raise e).
  { rewrite get_rag_unfold. cbv zeta.
    pose proof Hc as Hc'. apply DictFacts.contains_false in Hc'. rewrite Hc'.
    rewrite initialize_course_unfold.
    apply DictFacts.get_None in Hc. rewrite Hc, Hev.
    pose proof (create_instance_outcome c self1) as Hcr.
    destruct (create_instance c self1) as [r self2]. cbn [fst snd] in Hcr.
    inversion Hcr; subst; cbn [fst];
      destruct Hfail as [[Hn ->]|(rag' & Hn & Hi & ->)]; congruence. }
  split; [assumption|]. eapply get_rag_failure_leaves_absent; eauto.
Qed.

(* ---------------------------------------------------------------- *)
(** ** [cleanup] and [switch_course] *)

Lemma finalized_cleanup_events t items :
  finalized (cleanup_events t items) = Dict.keys items.
Proof.
  revert t. induction items as [|[c rag] rest IH]; intros t; cbn; auto.
  destruct (finalize_storages t rag); cbn; now rewrite IH.
Qed.

(** C8.  [cleanup] never raises.  It calls [finalize_storages] once on
    every resident engine, in dict order, whatever the outcome of the
    earlier calls; each call is followed by one log record, INFO when it
    returned and ERROR when it raised.  Both dicts are empty afterwards,
    and a second [cleanup] returns as well and changes nothing. *)
Theorem cleanup_never_raises_and_empties (self : RAGManager LightRAG) :
  fst (cleanup self) = Ok tt /\
  rag_instances (snd (cleanup self)) = [] /\
  course_access_count (snd (cleanup self)) = [] /\
  trace (snd (cleanup self)) =
    (trace self ++ cleanup_events (now self) (rag_instances self))%list /\
  finalized (cleanup_events (now self) (rag_instances self)) = resident self /\
  cleanup (snd (cleanup self)) = (Ok tt, snd (cleanup self)).
Proof.
  rewrite (cleanup_run self). cbn [fst snd].
  repeat split; auto.
  apply finalized_cleanup_events.
Qed.

(** C9.  [switch_course] never raises: it returns [True] exactly when
    [get_rag] returns and [False] when [get_rag] raises.  It leaves the
    two dicts as [get_rag] left them; the exception is not returned and
    not stored in the manager, it only goes into one ERROR log record. *)
Theorem switch_course_reports_get_rag (self : RAGManager LightRAG) (c : string) :
  fst (switch_course c self) = Ok (is_ok (fst (get_rag c self))) /\
  rag_instances (snd (switch_course c self)) = rag_instances (snd (get_rag c self)) /\
  course_access_count (snd (switch_course c self)) =
    course_access_count (snd (get_rag c self)) /\
  trace (snd (switch_course c self)) =
    match fst (get_rag c self) with
    | Ok _ => trace (snd (get_rag c self))
    | Raise e => (trace (snd (get_rag c self)) ++ [EvLog ERROR (MsgSwitchFailed c e)])%list
    end.
Proof.
  rewrite switch_course_unfold.
  destruct (get_rag c self) as [[rag|e] self']; cbn; auto.
Qed.

(* ---------------------------------------------------------------- *)
(** ** A manager of capacity zero *)

(** C10 (as the code has it).  With [max_preloaded] 0 the pool stays empty
    for ever.  [get_rag] and [initialize_course] raise ValueError for
    every course and change nothing (the minimum of an empty dict is
    taken); [preload_courses] keeps no course id, so it calls nothing and
    returns normally after logging that 0 courses were preloaded. *)
Theorem zero_capacity_admits_nothing
    (self : RAGManager LightRAG) (c : string) (ids : list string) :
  reachable 0 self ->
  rag_instances self = [] /\
  course_access_count self = [] /\
  get_rag c self = (Raise ValueError, self) /\
  initialize_course c self = (Raise ValueError, self) /\
  preload_courses ids self = (Ok tt, emit (EvLog INFO (MsgPreloaded 0)) self).
Proof.
  intros Hreach. destruct (reachable_inv _ _ Hreach) as [[Ha Hn Hcap] Hmax].
  destruct self as [rags cap counts tr]. cbn in *. subst cap.
  assert (rags = []) by (destruct rags; [auto | unfold Dict.len in Hcap; cbn in Hcap; lia]).
  subst rags.
  assert (counts = []) by (destruct counts; [auto | discriminate]).
  subst counts.
  repeat split.
Qed.

(* ---------------------------------------------------------------- *)
(** ** Preloading *)

Lemma constructed_emit ev self :
  constructed (trace (emit ev self)) =
  (constructed (trace self) ++
     match ev with EvConstruct ns => [ns] | _ => [] end)%list.
Proof.
  unfold constructed, emit. cbn [trace]. rewrite flat_map_app. cbn.
  now rewrite app_nil_r.
Qed.

Lemma in_firstn {A : Type} (n : nat) (l : list A) (x : A) :
  In x (firstn n l) -> In x l.
Proof.
  intros H. rewrite <- (firstn_skipn n l). apply in_or_app. now left.
Qed.

Lemma NoDup_firstn {A : Type} (n : nat) (l : list A) :
  NoDup l -> NoDup (firstn n l).
Proof.
  intros H. rewrite <- (firstn_skipn n l) in H. now apply NoDup_app_remove_r in H.
Qed.

Lemma NoDup_app_apart {A : Type} (l l' : list A) (x : A) :
  NoDup (l ++ l') -> In x l -> In x l' -> False.
Proof.
  intros Hnd Hl Hl'. apply in_split in Hl'. destruct Hl' as (a & b & ->).
  rewrite app_assoc in Hnd. apply NoDup_remove_2 in Hnd. apply Hnd.
  apply in_or_app. left. apply in_or_app. now left.
Qed.

Lemma forallb_all {A : Type} (l : list A) : forallb (fun _ => true) l = true.
Proof. induction l; cbn; auto. Qed.

Lemma evict_least_used_room self :
  Dict.len (rag_instances self) < max_preloaded self ->
  evict_least_used self = (Ok tt, self).
Proof.
  intros H. unfold evict_least_used, bind, get_self.
  destruct (Dict.len (rag_instances self) >=? max_preloaded self) eqn:E; auto.
  apply Z.geb_le in E. lia.
Qed.

(** One task of a preload that finds room: the course is admitted exactly
    when its engine can be built and initialised. *)
Lemma initialize_course_room (good : string -> bool) c self :
  pool_inv self ->
  ~ In c (resident self) ->
  Dict.len (rag_instances self) < max_preloaded self ->
  (good c = true -> forall t, exists rag,
      LightRAG_new t ("course_" ++ c) = Some rag /\
      forall t', initialize_storages t' rag = true) ->
  (good c = false -> forall t,
      LightRAG_new t ("course_" ++ c) = None \/
      exists rag, LightRAG_new t ("course_" ++ c) = Some rag /\
                  forall t', initialize_storages t' rag = false) ->
  is_ok (fst (initialize_course c self)) = good c /\
  pool_inv (snd (initialize_course c self)) /\
  max_preloaded (snd (initialize_course c self)) = max_preloaded self /\
  resident (snd (initialize_course c self)) =
    (resident self ++ if good c then [c] else [])%list /\
  course_access_count (snd (initialize_course c self)) =
    (course_access_count self ++ if good c then [(c, 0)] else [])%list /\
  constructed (trace (snd (initialize_course c self))) =
    (constructed (trace self) ++ [("course_" ++ c)%string])%list.
Proof.
  intros Hinv Hc Hroom Hgood Hbad.
  rewrite initialize_course_unfold.
  pose proof Hc as Hc'. apply DictFacts.get_None in Hc'. rewrite Hc'.
  rewrite (evict_least_used_room self Hroom).
  pose proof (create_instance_outcome c self) as Hcr.
  destruct (create_instance c self) as [r self1]. cbn [fst snd] in Hcr |- *.
  destruct (create_outcome_inv _ _ _ _ Hcr Hinv Hc Hroom) as (Hinv1 & Hmax1 & Hres).
  inversion Hcr as [Hnew|rag Hnew Hinit|rag Hnew Hinit]; subst;
    destruct (good c) eqn:Hg.
  - destruct (Hgood eq_refl (now self)) as (rag & Hn & _). congruence.
  - destruct Hres as [Er Et]. cbn [is_ok]. rewrite !app_nil_r.
    conj_steps. now rewrite constructed_emit.
  - destruct (Hgood eq_refl (now self)) as (rag' & Hn & Hi).
    rewrite Hnew in Hn. injection Hn as <-. rewrite Hi in Hinit. discriminate.
  - destruct Hres as [Er Et]. cbn [is_ok]. rewrite !app_nil_r.
    conj_steps. rewrite !constructed_emit. now rewrite app_nil_r.
  - destruct Hres as [Er Et]. cbn [is_ok].
    conj_steps. split; [|split; [assumption|]].
    + unfold resident, Dict.keys. now rewrite Er, map_app.
    + unfold registered.
      rewrite constructed_emit. cbn [trace set_course_access_count set_rag_instances].
      rewrite !constructed_emit. now rewrite !app_nil_r.
  - destruct (Hbad eq_refl (now self)) as [Hn|(rag' & Hn & Hi)]; [congruence|].
    rewrite Hnew in Hn. injection Hn as <-. rewrite Hi in Hinit. discriminate.
Qed.

(** A task that finds room fails only in the constructor or in
    [initialize_storages]. *)
Lemma initialize_course_room_error c self e :
  ~ In c (resident self) ->
  Dict.len (rag_instances self) < max_preloaded self ->
  fst (initialize_course c self) = Raise e ->
  e = ConstructError \/ e = InitializeError.
Proof.
  intros Hc Hroom. rewrite initialize_course_unfold.
  apply DictFacts.get_None in Hc. rewrite Hc.
  rewrite (evict_least_used_room self Hroom).
  pose proof (create_instance_outcome c self) as Hcr.
  destruct (create_instance c self) as [r self1]. cbn [fst snd] in *.
  inversion Hcr; subst; intros Hraise; try discriminate; injection Hraise as <-; auto.
Qed.

(** Tasks of a preload that all find room: the gather returns exactly when
    every course can be built, and then all of them have been admitted, in
    order; otherwise it raises the failure of a construction. *)
Lemma gather_fill (good : string -> bool) ids : forall self,
  pool_inv self ->
  NoDup ids ->
  (forall c, In c ids -> ~ In c (resident self)) ->
  Dict.len (rag_instances self) + Z.of_nat (length ids) <= max_preloaded self ->
  (forall c, In c ids -> good c = true -> forall t, exists rag,
      LightRAG_new t ("course_" ++ c) = Some rag /\
      forall t', initialize_storages t' rag = true) ->
  (forall c, In c ids -> good c = false -> forall t,
      LightRAG_new t ("course_" ++ c) = None \/
      exists rag, LightRAG_new t ("course_" ++ c) = Some rag /\
                  forall t', initialize_storages t' rag = false) ->
  is_ok (fst (gather (map initialize_course ids) self)) = forallb good ids /\
  match fst (gather (map initialize_course ids) self) with
  | Ok _ =>
      resident (snd (gather (map initialize_course ids) self)) =
        (resident self ++ ids)%list /\
      course_access_count (snd (gather (map initialize_course ids) self)) =
        (course_access_count self ++ map (fun c => (c, 0)) ids)%list /\
      constructed (trace (snd (gather (map initialize_course ids) self))) =
        (constructed (trace self) ++ map (fun c => ("course_" ++ c)%string) ids)%list
  | Raise e => e = ConstructError \/ e = InitializeError
  end.
Proof.
  induction ids as [|c ids IH]; intros self Hinv Hnd Hnew Hlen Hgood Hbad.
  - cbn. now rewrite !app_nil_r.
  - inversion Hnd as [|? ? Hc Hnd']; subst.
    cbn [length] in Hlen. cbn [map gather forallb].
    assert (Hcs : ~ In c (resident self)) by (apply Hnew; now left).
    assert (Hroom : Dict.len (rag_instances self) < max_preloaded self) by lia.
    destruct (initialize_course_room good c self Hinv Hcs Hroom)
      as (Hok & Hinv1 & Hmax1 & Hres1 & Hcnt1 & Htr1).
    { apply Hgood. now left. }
    { apply Hbad. now left. }
    pose proof (initialize_course_room_error c self) as Herr.
    destruct (initialize_course c self) as [[rag|e] self1]; cbn [fst snd is_ok] in *.
    + rewrite <- Hok in *. cbn [andb].
      assert (Hlen1 : Dict.len (rag_instances self1) <= Dict.len (rag_instances self) + 1).
      { rewrite !len_resident, Hres1, length_app. cbn [length]. lia. }
      destruct (IH self1) as (Hoks & Hst); auto.
      { intros c' Hin. rewrite Hres1. intros H. apply in_app_or in H.
        destruct H as [H|[<-|[]]]; [eapply Hnew; [right|]; eauto | tauto]. }
      { lia. }
      { intros c' Hin. apply Hgood. now right. }
      { intros c' Hin. apply Hbad. now right. }
      split; [exact Hoks|].
      destruct (fst (gather (map initialize_course ids) self1)); [|exact Hst].
      destruct Hst as (Hres & Hcnt & Htr).
      rewrite Hres, Hres1, Hcnt, Hcnt1, Htr, Htr1. cbn [map].
      now rewrite <- !app_assoc.
    + rewrite <- Hok. cbn [andb]. split; [reflexivity|]. now apply Herr.
Qed.

Lemma pool_inv_empty self :
  rag_instances self = [] -> course_access_count self = [] -> pool_inv self.
Proof.
  intros Hr Hc. split; unfold resident, tracked, Dict.len; rewrite ?Hr, ?Hc; cbn;
    [reflexivity | constructor | lia].
Qed.

Lemma slice_to_nonneg {A : Type} (stop : Z) (l : list A) :
  0 <= stop -> slice_to stop l = firstn (Z.to_nat stop) l.
Proof.
  intros H. unfold slice_to. destruct (Z.ltb_spec stop 0); [lia | reflexivity].
Qed.

(** Preloading into an empty pool: the call returns exactly when every
    retained course can be built, and then all of them are resident with
    count 0; otherwise it raises the failure of a construction. *)
Lemma preload_courses_empty (good : string -> bool) self ids :
  rag_instances self = [] ->
  course_access_count self = [] ->
  0 <= max_preloaded self ->
  NoDup ids ->
  (forall c, In c (slice_to (max_preloaded self) ids) -> good c = true ->
     forall t, exists rag,
       LightRAG_new t ("course_" ++ c) = Some rag /\
       forall t', initialize_storages t' rag = true) ->
  (forall c, In c (slice_to (max_preloaded self) ids) -> good c = false ->
     forall t,
       LightRAG_new t ("course_" ++ c) = None \/
       exists rag, LightRAG_new t ("course_" ++ c) = Some rag /\
                   forall t', initialize_storages t' rag = false) ->
  is_ok (fst (preload_courses ids self)) =
    forallb good (slice_to (max_preloaded self) ids) /\
  match fst (preload_courses ids self) with
  | Ok _ =>
      resident (snd (preload_courses ids self)) = slice_to (max_preloaded self) ids /\
      course_access_count (snd (preload_courses ids self)) =
        map (fun c => (c, 0)) (slice_to (max_preloaded self) ids) /\
      constructed (trace (snd (preload_courses ids self))) =
        (constructed (trace self) ++
         map (fun c => ("course_" ++ c)%string) (slice_to (max_preloaded self) ids))%list
  | Raise e => e = ConstructError \/ e = InitializeError
  end.
Proof.
  intros Hr Hc Hcap Hnd Hgood Hbad.
  rewrite preload_courses_unfold. cbv zeta.
  destruct (gather_fill good (slice_to (max_preloaded self) ids) self)
    as (Hoks & Hst); auto.
  { now apply pool_inv_empty. }
  { rewrite slice_to_nonneg by assumption. now apply NoDup_firstn. }
  { unfold resident. rewrite Hr. cbn. tauto. }
  { unfold Dict.len. rewrite Hr, slice_to_nonneg by assumption. cbn [length].
    pose proof (firstn_le_length (Z.to_nat (max_preloaded self)) ids). lia. }
  destruct (gather _ self) as [[[]|e] self1]; cbn [fst snd is_ok] in *;
    (split; [exact Hoks|]); [|exact Hst].
  destruct Hst as (Hres & Hcnt & Htr).
  unfold resident in Hres. rewrite Hr in Hres. rewrite Hc in Hcnt. cbn in Hres, Hcnt.
  split; [exact Hres|]. split; [exact Hcnt|].
  rewrite constructed_emit. now rewrite app_nil_r.
Qed.


Lemma namespace_inj (a b : string) : "course_" ++ a = "course_" ++ b -> a = b.
Proof. cbn. intros H. now injection H. Qed.

(** C7.  On an empty pool with capacity [M], preloading [N > M] distinct
    ids whose engines can all be built returns normally; exactly the
    first [M] ids, in input order, are resident, each with access count
    0; the constructor is called for these [M] ids only, never for an id
    beyond them. *)
Theorem preload_keeps_first_ids
    (self : RAGManager LightRAG) (ids : list string) (M : Z) :
  rag_instances self = [] ->
  course_access_count self = [] ->
  max_preloaded self = M ->
  0 <= M < Z.of_nat (length ids) ->
  NoDup ids ->
  (forall c, In c ids -> forall t, exists rag,
     LightRAG_new t ("course_" ++ c) = Some rag /\
     forall t', initialize_storages t' rag = true) ->
  fst (preload_courses ids self) = Ok tt /\
  resident (snd (preload_courses ids self)) = firstn (Z.to_nat M) ids /\
  Dict.len (rag_instances (snd (preload_courses ids self))) = M /\
  course_access_count (snd (preload_courses ids self)) =
    map (fun c => (c, 0)) (firstn (Z.to_nat M) ids) /\
  constructed (trace (snd (preload_courses ids self))) =
    (constructed (trace self) ++
     map (fun c => ("course_" ++ c)%string) (firstn (Z.to_nat M) ids))%list /\
  (forall c, In c (skipn (Z.to_nat M) ids) ->
     ~ In ("course_" ++ c)
          (map (fun c => ("course_" ++ c)%string) (firstn (Z.to_nat M) ids))).
Proof.
  intros Hr Hc HM Hlen Hnd Hall.
  destruct (preload_courses_empty (fun _ => true) self ids Hr Hc)
    as (Hok & Hst); auto.
  { lia. }
  { intros c Hin _. apply Hall. rewrite HM, slice_to_nonneg in Hin by lia.
    eapply in_firstn; eauto. }
  { discriminate. }
  rewrite forallb_all in Hok.
  destruct (fst (preload_courses ids self)) as [[]|e]; [|discriminate].
  destruct Hst as (Hres & Hcnt & Htr).
  rewrite HM, slice_to_nonneg in * by lia.
  split; [reflexivity|].
  conj_steps. split; [|split; [assumption|split; [assumption|]]].
  - rewrite len_resident, Hres, length_firstn. lia.
  - intros c Hin Hns. apply in_map_iff in Hns. destruct Hns as (c' & E & Hin').
    apply namespace_inj in E. subst c'.
    rewrite <- (firstn_skipn (Z.to_nat M) ids) in Hnd.
    eapply NoDup_app_apart; eauto.
Qed.

End Properties.

(* ------------------------------------------------------------------ *)
(** ** The theorems at work on the concrete engine *)

Lemma demo_not_in (c : string) (l : list string) :
  existsb (String.eqb c) l = false -> ~ In c l.
Proof.
  intros H Hin. assert (existsb (String.eqb c) l = true); [|congruence].
  apply existsb_exists. exists c. split; auto. apply String.eqb_refl.
Qed.

Ltac demo_nodup :=
  repeat (apply NoDup_cons; [apply demo_not_in; reflexivity|]); apply NoDup_nil.

(** Capacity 2, ops get A, get B, get C: the bound holds at the end. *)
Lemma resident_count_within_capacity_demo :
  1 <= 2 /\
  Dict.len (rag_instances (Demo.run [OpGet "A"; OpGet "B"; OpGet "C"] (Demo.fresh 2))) <= 2.
Proof.
  split; [lia|].
  apply (resident_count_within_capacity (api := Demo.api) 2
           [OpGet "A"; OpGet "B"; OpGet "C"]).
  lia.
Defined.


(** The two dicts at the end of scenario 1 and of scenario 2. *)
Example eviction_scenarios :
  course_access_count Demo.tied = [("A", 1); ("B", 1)] /\
  course_access_count (Demo.run [OpGet "A"; OpGet "B"; OpGet "C"] (Demo.fresh 2)) =
    [("B", 1); ("C", 1)] /\
  course_access_count Demo.skewed = [("A", 2); ("B", 1)] /\
  course_access_count (Demo.run [OpGet "A"; OpGet "A"; OpGet "B"; OpGet "C"] (Demo.fresh 2)) =
    [("A", 2); ("C", 1)].
Proof. repeat split. Qed.

(** The pool [Demo.stuck] is full and its only engine raises in
    [finalize_storages]: get B raises that exception, "leaky" stays in both
    dicts and B is not admitted. *)
Lemma eviction_finalize_failure_propagates_demo :
  ~ In "B" (resident Demo.stuck) /\
  max_preloaded Demo.stuck <= Dict.len (rag_instances Demo.stuck) /\
  py_min (course_access_count Demo.stuck) = Some ("leaky", 1) /\
  Dict.get (rag_instances Demo.stuck) "leaky" = Some "course_leaky" /\
  finalize_storages (EngineAPI := Demo.api) (now Demo.stuck) "course_leaky" = false /\
  initialize_course (api := Demo.api) "B" Demo.stuck =
    (Raise FinalizeError, emit (EvFinalize "leaky") Demo.stuck) /\
  get_rag (api := Demo.api) "B" Demo.stuck =
    (Raise FinalizeError, emit (EvFinalize "leaky") Demo.stuck) /\
  In "leaky" (resident (snd (get_rag (api := Demo.api) "B" Demo.stuck))) /\
  In "leaky" (tracked (snd (get_rag (api := Demo.api) "B" Demo.stuck))) /\
  ~ In "B" (resident (snd (get_rag (api := Demo.api) "B" Demo.stuck))).
Proof.
  assert (H1 : ~ In "B" (resident Demo.stuck)) by (apply demo_not_in; reflexivity).
  assert (H2 : max_preloaded Demo.stuck <= Dict.len (rag_instances Demo.stuck))
    by (vm_compute; discriminate).
  split; [exact H1|]. split; [exact H2|]. do 3 (split; [reflexivity|]).
  apply (eviction_finalize_failure_propagates (api := Demo.api)
           Demo.stuck "B" "leaky" 1 "course_leaky" H1 H2); reflexivity.
Defined.


Lemma demo_buildable (c : string) :
  Demo.buildable c = true ->
  forall t : nat, exists rag,
    LightRAG_new (EngineAPI := Demo.api) t ("course_" ++ c) = Some rag /\
    forall t', initialize_storages (EngineAPI := Demo.api) t' rag = true.
Proof.
  intros Hb t. exists ("course_" ++ c). split; [|reflexivity].
  unfold Demo.buildable in Hb. cbn in *.
  destruct (String.eqb c "bad"); [discriminate | reflexivity].
Qed.



(** Scenario 4: the constructor raises for "bad"; get raises and "bad" is
    in neither dict. *)
Lemma get_rag_construction_failure_demo :
  reachable (api := Demo.api) 3 Demo.roomy /\
  ~ In "bad" (resident Demo.roomy) /\
  evict_least_used (api := Demo.api) Demo.roomy = (Ok tt, Demo.roomy) /\
  LightRAG_new (EngineAPI := Demo.api) (now Demo.roomy) ("course_" ++ "bad") = None /\
  fst (get_rag (api := Demo.api) "bad" Demo.roomy) = Raise ConstructError /\
  ~ In "bad" (resident (snd (get_rag (api := Demo.api) "bad" Demo.roomy))) /\
  ~ In "bad" (tracked (snd (get_rag (api := Demo.api) "bad" Demo.roomy))).
Proof.
  assert (H1 : reachable (api := Demo.api) 3 Demo.roomy)
    by (exists [OpGet "A"]; reflexivity).
  assert (H2 : ~ In "bad" (resident Demo.roomy)) by (apply demo_not_in; reflexivity).
  split; [exact H1|]. split; [exact H2|]. do 2 (split; [reflexivity|]).
  apply (get_rag_construction_failure (api := Demo.api) 3 Demo.roomy Demo.roomy
           "bad" ConstructError H1 H2 eq_refl).
  left. split; reflexivity.
Defined.

(** Scenario 3: preload x, y, z with capacity 2 keeps x and y; z is never
    constructed. *)
Lemma preload_keeps_first_ids_demo :
  rag_instances (Demo.fresh 2) = [] /\
  course_access_count (Demo.fresh 2) = [] /\
  max_preloaded (Demo.fresh 2) = 2 /\
  0 <= 2 < Z.of_nat (length ["x"; "y"; "z"]) /\
  NoDup ["x"; "y"; "z"] /\
  fst (preload_courses (api := Demo.api) ["x"; "y"; "z"] (Demo.fresh 2)) = Ok tt /\
  resident (snd (preload_courses (api := Demo.api) ["x"; "y"; "z"] (Demo.fresh 2))) =
    firstn (Z.to_nat 2) ["x"; "y"; "z"] /\
  Dict.len (rag_instances
              (snd (preload_courses (api := Demo.api) ["x"; "y"; "z"] (Demo.fresh 2)))) = 2 /\
  course_access_count
    (snd (preload_courses (api := Demo.api) ["x"; "y"; "z"] (Demo.fresh 2))) =
    map (fun c => (c, 0)) (firstn (Z.to_nat 2) ["x"; "y"; "z"]) /\
  constructed
    (trace (snd (preload_courses (api := Demo.api) ["x"; "y"; "z"] (Demo.fresh 2)))) =
    (constructed (trace (Demo.fresh 2)) ++
     map (fun c => ("course_" ++ c)%string) (firstn (Z.to_nat 2) ["x"; "y"; "z"]))%list /\
  (forall c, In c (skipn (Z.to_nat 2) ["x"; "y"; "z"]) ->
     ~ In ("course_" ++ c)
          (map (fun c => ("course_" ++ c)%string) (firstn (Z.to_nat 2) ["x"; "y"; "z"]))).
Proof.
  assert (H4 : 0 <= 2 < Z.of_nat (length ["x"; "y"; "z"])) by (cbn; lia).
  assert (H5 : NoDup ["x"; "y"; "z"]) by demo_nodup.
  do 3 (split; [reflexivity|]). split; [exact H4|]. split; [exact H5|].
  apply (preload_keeps_first_ids (api := Demo.api) (Demo.fresh 2) ["x"; "y"; "z"] 2
           eq_refl eq_refl eq_refl H4 H5).
  intros c Hin. apply demo_buildable.
  destruct Hin as [<-|[<-|[<-|[]]]]; reflexivity.
Defined.

(** With capacity 0, preloading a course that is not resident does not
    fail: no id is retained, nothing is called, and the call returns. *)
Lemma preload_zero_capacity_returns :
  fst (preload_courses (api := Demo.api) ["x"] (Demo.fresh 0)) = Ok tt /\
  trace (snd (preload_courses (api := Demo.api) ["x"] (Demo.fresh 0))) =
    [EvLog INFO (MsgPreloaded 0)].
Proof. split; reflexivity. Qed.

Lemma zero_capacity_admits_nothing_demo :
  reachable (api := Demo.api) 0 Demo.closed /\
  rag_instances Demo.closed = [] /\
  course_access_count Demo.closed = [] /\
  get_rag (api := Demo.api) "B" Demo.closed = (Raise ValueError, Demo.closed) /\
  initialize_course (api := Demo.api) "B" Demo.closed = (Raise ValueError, Demo.closed) /\
  preload_courses (api := Demo.api) ["x"; "y"] Demo.closed =
    (Ok tt, emit (EvLog INFO (MsgPreloaded 0)) Demo.closed).
Proof.
  assert (H1 : reachable (api := Demo.api) 0 Demo.closed)
    by (exists [OpGet "A"; OpPreload ["x"; "y"]; OpSwitch "B"]; reflexivity).
  split; [exact H1|].
  apply (zero_capacity_admits_nothing (api := Demo.api) Demo.closed "B" ["x"; "y"] H1).
Defined.

(* ------------------------------------------------------------------ *)
(** ** More facts about dictionaries *)

Section MoreDictFacts.
Context {V : Type}.
Implicit Types (d : Dict.t V) (k : string) (v : V).

Lemma get_set_same d k v : Dict.get (Dict.set d k v) k = Some v.
Proof.
  induction d as [|[k' v'] r IH]; simpl.
  - now rewrite String.eqb_refl.
  - destruct (String.eqb_spec k k') as [->|Hne]; simpl.
    + now rewrite String.eqb_refl.
    + destruct (String.eqb_spec k k'); [congruence | exact IH].
Qed.

Lemma get_set_other d k k' v : k' <> k -> Dict.get (Dict.set d k v) k' = Dict.get d k'.
Proof.
  intros Hne. induction d as [|[k0 v0] r IH]; simpl.
  - destruct (String.eqb_spec k' k); [congruence | reflexivity].
  - destruct (String.eqb_spec k k0) as [->|Hk]; simpl.
    + destruct (String.eqb_spec k' k0); [congruence | reflexivity].
    + destruct (String.eqb_spec k' k0); [reflexivity | exact IH].
Qed.

Lemma in_get d k v : NoDup (Dict.keys d) -> In (k, v) d -> Dict.get d k = Some v.
Proof.
  induction d as [|[k' v'] r IH]; simpl; intros Hnd Hin; [tauto|].
  inversion Hnd as [|? ? Hout Hnd']; subst.
  destruct Hin as [E|Hin].
  - injection E as -> ->. now rewrite String.eqb_refl.
  - destruct (String.eqb_spec k k') as [->|Hne]; [|auto].
    exfalso. apply Hout. change k' with (fst (k', v)). now apply in_map.
Qed.

Lemma get_in d k v : Dict.get d k = Some v -> In (k, v) d.
Proof.
  induction d as [|[k' v'] r IH]; simpl; [discriminate|].
  destruct (String.eqb_spec k k') as [->|Hne]; intros H.
  - injection H as ->. now left.
  - right. auto.
Qed.

Lemma in_set d k v kv : In kv (Dict.set d k v) -> In kv d \/ kv = (k, v).
Proof.
  induction d as [|[k' v'] r IH]; simpl.
  - intros [<-|[]]. now right.
  - destruct (String.eqb_spec k k') as [->|Hne]; simpl.
    + intros [<-|H]; [now right | left; now right].
    + intros [<-|H]; [left; now left|]. destruct (IH H); [left; now right | now right].
Qed.

Lemma in_del d k kv : In kv (Dict.del d k) -> In kv d.
Proof.
  induction d as [|[k' v'] r IH]; simpl; [tauto|].
  destruct (String.eqb_spec k k'); simpl; [now right|].
  intros [<-|H]; [now left | right; auto].
Qed.

Lemma get_del_other d k k' : k' <> k -> Dict.get (Dict.del d k) k' = Dict.get d k'.
Proof.
  intros Hne. induction d as [|[k0 v0] r IH]; simpl; auto.
  destruct (String.eqb_spec k k0) as [->|Hk]; simpl.
  - destruct (String.eqb_spec k' k0); [congruence | reflexivity].
  - destruct (String.eqb_spec k' k0); [reflexivity | exact IH].
Qed.

Lemma get_app_old d k k' v :
  k' <> k -> Dict.get (d ++ [(k, v)])%list k' = Dict.get d k'.
Proof.
  intros Hne. induction d as [|[k0 v0] r IH]; simpl.
  - destruct (String.eqb_spec k' k); [congruence | reflexivity].
  - destruct (String.eqb_spec k' k0); [reflexivity | exact IH].
Qed.

End MoreDictFacts.

(* ------------------------------------------------------------------ *)
(** ** A proof principle for the reachable states

    A property of the manager state that survives an appended event, an
    eviction, a registration, a counter update and the final clearing of
    [cleanup] holds in every reachable state. *)

Section Preservation.
Context {LightRAG : Type} {api : EngineAPI LightRAG}.
Variable P : RAGManager LightRAG -> Prop.
Hypothesis P_emit : forall ev self, P self -> P (emit ev self).
Hypothesis P_evicted : forall v self,
  pool_inv self -> In v (resident self) -> P self -> P (evicted v self).
Hypothesis P_registered : forall c rag self,
  pool_inv self -> ~ In c (resident self) -> P self -> P (registered c rag self).
Hypothesis P_touched : forall c self,
  pool_inv self -> In c (resident self) -> P self -> P (touched c self).
Hypothesis P_cleared : forall self evs,
  P self ->
  P {| rag_instances := []; max_preloaded := max_preloaded self;
       course_access_count := []; trace := trace self ++ evs |}.

Lemma initialize_course_keeps c self :
  pool_inv self -> P self -> P (snd (initialize_course c self)).
Proof.
  intros Hinv HP. rewrite initialize_course_unfold.
  destruct (Dict.get (rag_instances self) c) as [rag|] eqn:Hget; [exact HP|].
  apply DictFacts.get_None in Hget.
  pose proof (evict_least_used_outcome self) as Hev.
  destruct (evict_least_used self) as [r self1]. cbn [fst snd] in Hev.
  destruct (evict_outcome_inv _ _ _ Hev Hinv) as (Hinv1 & _ & Hsub & _).
  assert (HP1 : P self1).
  { inversion Hev; subst; auto.
    apply P_evicted; auto. eapply DictFacts.get_Some_in; eauto. }
  destruct r as [[]|e]; [|exact HP1].
  assert (Hc1 : ~ In c (resident self1)) by (intros H; apply Hget, Hsub, H).
  pose proof (create_instance_outcome c self1) as Hcr.
  destruct (create_instance c self1) as [r self2]. cbn [fst snd] in *.
  inversion Hcr; subst; auto.
Qed.

Lemma get_rag_keeps c self :
  pool_inv self -> P self -> P (snd (get_rag c self)).
Proof.
  intros Hinv HP. rewrite get_rag_unfold. cbv zeta.
  destruct (Dict.contains (rag_instances self) c) eqn:Hc.
  - apply DictFacts.contains_true in Hc.
    destruct (Dict.get (rag_instances self) c); cbn [snd]; now apply P_touched.
  - pose proof (initialize_course_keeps c self Hinv HP) as HP1.
    destruct (initialize_course_inv c self Hinv) as (Hinv1 & _ & Hres).
    destruct (initialize_course c self) as [[rag|e] self1]; cbn [fst snd] in *; auto.
    assert (Hin : In c (resident self1)) by (eapply DictFacts.get_Some_in; eauto).
    destruct (Dict.get (rag_instances self1) c); cbn [snd]; now apply P_touched.
Qed.

Lemma gather_keeps ids : forall self,
  pool_inv self -> P self ->
  P (snd (gather (map initialize_course ids) self)).
Proof.
  induction ids as [|c ids IH]; intros self Hinv HP; cbn [map gather]; auto.
  pose proof (initialize_course_keeps c self Hinv HP) as HP1.
  destruct (initialize_course_inv c self Hinv) as (Hinv1 & _ & _).
  destruct (initialize_course c self) as [[rag|e] self1]; cbn [fst snd] in *; auto.
Qed.

Lemma run_op_keeps o self : pool_inv self -> P self -> P (run_op o self).
Proof.
  intros Hinv HP. destruct o as [c|ids|c|c|]; cbn [run_op].
  - now apply initialize_course_keeps.
  - rewrite preload_courses_unfold. cbv zeta.
    pose proof (gather_keeps (slice_to (max_preloaded self) ids) self Hinv HP).
    destruct (gather _ self) as [[[]|e] self1]; cbn [snd] in *; auto.
  - now apply get_rag_keeps.
  - rewrite switch_course_unfold.
    pose proof (get_rag_keeps c self Hinv HP).
    destruct (get_rag c self) as [[rag|e] self1]; cbn [snd] in *; auto.
  - rewrite cleanup_run. cbn [snd]. now apply P_cleared.
Qed.

Lemma reachable_keeps cap self :
  P (RAGManager_init cap) -> reachable cap self -> P self.
Proof.
  intros HP0 [ops ->].
  assert (H : forall s, pool_inv s -> P s -> P (run_ops ops s)).
  { induction ops as [|o ops IH]; intros s Hinv HP; cbn; auto.
    apply IH; [apply run_op_inv, Hinv | now apply run_op_keeps]. }
  apply H; [apply pool_inv_init | exact HP0].
Qed.

End Preservation.

(* ------------------------------------------------------------------ *)
(** ** Further properties of the manager *)

Section Extras.
Context {LightRAG : Type} {api : EngineAPI LightRAG}.
Implicit Types (self : RAGManager LightRAG) (c : string).

(** X1.  After any sequence of operations on a fresh manager no course id
    occurs twice in [rag_instances] (nor in [course_access_count]): a course
    has at most one engine, and [max_preloaded] is the value the manager was
    built with. *)
Theorem one_engine_per_course (cap : Z) (ops : list op) :
  NoDup (resident (run_ops ops (RAGManager_init (LightRAG := LightRAG) cap))) /\
  NoDup (tracked (run_ops ops (RAGManager_init (LightRAG := LightRAG) cap))) /\
  max_preloaded (run_ops ops (RAGManager_init (LightRAG := LightRAG) cap)) = cap.
Proof.
  destruct (run_ops_inv ops (RAGManager_init cap) (pool_inv_init cap))
    as ([Ha Hnd _] & Hmax).
  rewrite <- Ha. auto.
Qed.

Lemma counts_nonneg_reachable cap self :
  reachable cap self ->
  Forall (fun kv => 0 <= snd kv) (course_access_count self).
Proof.
  apply (reachable_keeps
           (fun s => Forall (fun kv => 0 <= snd kv) (course_access_count s))).
  - intros ev s H. exact H.
  - intros v s _ _ H. rewrite Forall_forall in *. intros kv Hin.
    apply H. cbn in Hin. eapply in_del; eauto.
  - intros c rag s _ _ H. rewrite Forall_forall in *. intros kv Hin.
    cbn in Hin. apply in_set in Hin. destruct Hin as [Hin| ->]; [auto | cbn; lia].
  - intros c s _ _ H. rewrite Forall_forall in *. intros kv Hin.
    cbn in Hin. apply in_set in Hin. destruct Hin as [Hin| ->]; [auto|].
    cbn [snd]. unfold Dict.get_default.
    destruct (Dict.get (course_access_count s) c) as [n|] eqn:E; [|lia].
    apply get_in in E. specialize (H _ E). cbn in H. lia.
  - intros s evs _. constructor.
  - constructor.
Qed.

(** X2.  No access count is ever negative, and a course that [get_rag]
    has just returned has a count of at least 1. *)
Theorem access_counts_nonnegative (cap : Z) (ops : list op) (c : string) :
  Forall (fun kv => 0 <= snd kv)
    (course_access_count (run_ops ops (RAGManager_init (LightRAG := LightRAG) cap))) /\
  match fst (get_rag c (run_ops ops (RAGManager_init cap))) with
  | Ok _ =>
      exists n, 1 <= n /\
        Dict.get (course_access_count
                    (snd (get_rag c (run_ops ops (RAGManager_init cap))))) c = Some n
  | Raise _ => True
  end.
Proof.
  assert (Hreach : reachable cap (run_ops ops (RAGManager_init cap))) by now exists ops.
  pose proof (counts_nonneg_reachable _ _ Hreach) as Hpos.
  split; [exact Hpos|].
  remember (run_ops ops (RAGManager_init cap)) as self eqn:Hs. clear Hs.
  rewrite get_rag_unfold in *. cbv beta zeta in *.
  assert (Hfin : forall s : RAGManager LightRAG,
            Forall (fun kv => 0 <= snd kv) (course_access_count s) ->
            exists n, 1 <= n /\
              Dict.get (course_access_count (touched c s)) c = Some n).
  { intros s Hs. exists (Dict.get_default (course_access_count s) c 0 + 1). split.
    - unfold Dict.get_default.
      destruct (Dict.get (course_access_count s) c) as [n|] eqn:E; [|lia].
      apply get_in in E. rewrite Forall_forall in Hs. specialize (Hs _ E). cbn in Hs. lia.
    - apply get_set_same. }
  destruct (Dict.contains (rag_instances self) c).
  - destruct (Dict.get (rag_instances self) c); cbn [fst snd]; auto.
  - assert (Hreach1 : reachable cap (snd (initialize_course c self))).
    { destruct Hreach as [ops' ->]. exists (ops' ++ [OpInitialize c])%list.
      unfold run_ops. now rewrite fold_left_app. }
    apply counts_nonneg_reachable in Hreach1.
    destruct (initialize_course c self) as [[rag|e] self1]; cbn [fst snd] in *; auto.
    destruct (Dict.get (rag_instances self1) c); cbn [fst snd]; auto.
Qed.

(** X3.  Every resident course had its namespace handed to the LightRAG
    constructor earlier: the pool never holds a course it did not build. *)
Theorem resident_courses_were_constructed (cap : Z) (ops : list op) :
  Forall (fun c => In ("course_" ++ c)
                      (constructed (trace (run_ops ops (RAGManager_init cap)))))
         (resident (run_ops ops (RAGManager_init (LightRAG := LightRAG) cap))).
Proof.
  assert (Hreach : reachable cap (run_ops ops (RAGManager_init cap))) by now exists ops.
  revert Hreach.
  apply (reachable_keeps
           (fun s => Forall (fun c => In ("course_" ++ c) (constructed (trace s)))
                            (resident s))).
  - intros ev s H. rewrite Forall_forall in *. intros c Hin.
    rewrite constructed_emit. apply in_or_app. left. now apply H.
  - intros v s Hinv _ H. rewrite Forall_forall in *. intros c Hin.
    rewrite (resident_evicted v s (inv_nodup _ Hinv)) in Hin.
    apply in_remove in Hin. destruct Hin as [Hin _].
    unfold evicted. cbn [trace set_course_access_count set_rag_instances].
    rewrite constructed_emit. apply in_or_app. left. now apply H.
  - intros c rag s Hinv Hc H. rewrite Forall_forall in *. intros c' Hin.
    destruct (registered_fresh c rag s (inv_aligned _ Hinv) Hc) as [Er _].
    unfold resident, Dict.keys in Hin. rewrite Er, map_app in Hin. cbn in Hin.
    unfold registered. rewrite constructed_emit.
    cbn [trace set_course_access_count set_rag_instances].
    rewrite !constructed_emit, !app_nil_r.
    apply in_app_or in Hin. apply in_or_app. destruct Hin as [Hin|[<-|[]]].
    + left. now apply H.
    + right. now left.
  - intros c s _ _ H. exact H.
  - intros s evs _. constructor.
  - constructor.
Qed.

Lemma get_rag_resident c self rag :
  Dict.get (rag_instances self) c = Some rag ->
  get_rag c self = (Ok rag, touched c self).
Proof.
  intros Hget. rewrite get_rag_unfold. cbv beta zeta.
  unfold Dict.contains. now rewrite Hget.
Qed.

Lemma tracked_has_count self c :
  In c (tracked self) -> exists n, Dict.get (course_access_count self) c = Some n.
Proof.
  intros Hin. destruct (Dict.get (course_access_count self) c) as [n|] eqn:E; eauto.
  apply DictFacts.get_None in E. tauto.
Qed.

(** X4.  [get_rag] on a resident course is a pure hit: it returns the
    stored engine, calls nothing and logs nothing, leaves [rag_instances]
    and the order of the tracked keys untouched, adds exactly 1 to the count
    of that course and changes no other count. *)
Theorem get_rag_hit
    (cap : Z) (self : RAGManager LightRAG) (c : string) :
  reachable cap self ->
  In c (resident self) ->
  exists rag n,
    Dict.get (rag_instances self) c = Some rag /\
    Dict.get (course_access_count self) c = Some n /\
    fst (get_rag c self) = Ok rag /\
    rag_instances (snd (get_rag c self)) = rag_instances self /\
    trace (snd (get_rag c self)) = trace self /\
    tracked (snd (get_rag c self)) = tracked self /\
    Dict.get (course_access_count (snd (get_rag c self))) c = Some (n + 1) /\
    forall c', c' <> c ->
      Dict.get (course_access_count (snd (get_rag c self))) c' =
      Dict.get (course_access_count self) c'.
Proof.
  intros Hreach Hin. destruct (reachable_inv _ _ Hreach) as [Hinv _].
  destruct (Dict.get (rag_instances self) c) as [rag|] eqn:Hget;
    [|apply DictFacts.get_None in Hget; tauto].
  assert (Hin' : In c (tracked self)) by now rewrite <- (inv_aligned _ Hinv).
  destruct (tracked_has_count self c Hin') as [n Hn].
  exists rag, n. rewrite (get_rag_resident c self rag Hget). cbn [fst snd].
  conj_steps. split; [now apply tracked_touched|]. split.
  - unfold touched. cbn [course_access_count set_course_access_count].
    unfold Dict.get_default. rewrite Hn. apply get_set_same.
  - intros c' Hne. unfold touched. cbn [course_access_count set_course_access_count].
    now apply get_set_other.
Qed.

(** X5.  No duplicate construction: once [initialize_course] has returned
    an engine for a course, calling it again returns the same engine and
    changes nothing, and [get_rag] returns that engine too without calling
    the constructor. *)
Theorem initialize_course_idempotent
    (cap : Z) (self self1 : RAGManager LightRAG) (c : string) (rag : LightRAG) :
  reachable cap self ->
  initialize_course c self = (Ok rag, self1) ->
  initialize_course c self1 = (Ok rag, self1) /\
  fst (get_rag c self1) = Ok rag /\
  constructed (trace (snd (get_rag c self1))) = constructed (trace self1).
Proof.
  intros Hreach Hrun. destruct (reachable_inv _ _ Hreach) as [Hinv _].
  destruct (initialize_course_inv c self Hinv) as (_ & _ & Hres).
  rewrite Hrun in Hres. cbn [fst snd] in Hres.
  split.
  - rewrite initialize_course_unfold. now rewrite Hres.
  - now rewrite (get_rag_resident c self1 rag Hres).
Qed.

(** X6.  A course that was not resident starts afresh: right after a
    successful [initialize_course] its count is 0, and right after a
    successful [get_rag] its count is 1, whatever count it had before an
    earlier eviction. *)
Theorem admitted_course_starts_at_zero
    (cap : Z) (self self1 : RAGManager LightRAG) (c : string) (rag : LightRAG) :
  reachable cap self ->
  ~ In c (resident self) ->
  initialize_course c self = (Ok rag, self1) ->
  Dict.get (course_access_count self1) c = Some 0 /\
  get_rag c self = (Ok rag, touched c self1) /\
  Dict.get (course_access_count (snd (get_rag c self))) c = Some 1.
Proof.
  intros Hreach Hc Hrun. destruct (reachable_inv _ _ Hreach) as [Hinv _].
  destruct (initialize_course_inv c self Hinv) as (_ & _ & Hres).
  rewrite Hrun in Hres. cbn [fst snd] in Hres.
  assert (H0 : Dict.get (course_access_count self1) c = Some 0).
  { rewrite initialize_course_unfold in Hrun.
    pose proof Hc as Hc'. apply DictFacts.get_None in Hc'. rewrite Hc' in Hrun.
    pose proof (evict_least_used_outcome self) as Hev.
    destruct (evict_least_used self) as [[[]|e] s1]; [|discriminate].
    cbn [fst snd] in Hev.
    destruct (evict_outcome_inv _ _ _ Hev Hinv) as (Hinv1 & _ & Hsub & Hroom).
    assert (Hc1 : ~ In c (resident s1)) by (intros H; apply Hc, Hsub, H).
    pose proof (create_instance_outcome c s1) as Hcr.
    rewrite Hrun in Hcr. cbn [fst snd] in Hcr.
    destruct (create_outcome_inv _ _ _ _ Hcr Hinv1 Hc1 (Hroom eq_refl)) as (_ & _ & _ & Et).
    rewrite Et. apply get_app_new. change (~ In c (tracked s1)).
    now rewrite <- (inv_aligned _ Hinv1). }
  assert (Hg : get_rag c self = (Ok rag, touched c self1)).
  { rewrite get_rag_unfold. cbv beta zeta.
    apply DictFacts.contains_false in Hc. now rewrite Hc, Hrun, Hres. }
  split; [exact H0|]. split; [exact Hg|].
  rewrite Hg. cbn [snd]. unfold touched.
  cbn [course_access_count set_course_access_count].
  unfold Dict.get_default. rewrite H0. apply get_set_same.
Qed.

(** X14.  [switch_course] on a resident course always answers [True], and
    the probe counts as a use: the count of the course goes up by 1. *)
Theorem switch_course_hit
    (cap : Z) (self : RAGManager LightRAG) (c : string) :
  reachable cap self ->
  In c (resident self) ->
  switch_course c self = (Ok true, touched c self) /\
  exists n,
    Dict.get (course_access_count self) c = Some n /\
    Dict.get (course_access_count (snd (switch_course c self))) c = Some (n + 1).
Proof.
  intros Hreach Hin. destruct (reachable_inv _ _ Hreach) as [Hinv _].
  destruct (Dict.get (rag_instances self) c) as [rag|] eqn:Hget;
    [|apply DictFacts.get_None in Hget; tauto].
  assert (Hin' : In c (tracked self)) by now rewrite <- (inv_aligned _ Hinv).
  destruct (tracked_has_count self c Hin') as [n Hn].
  assert (Hs : switch_course c self = (Ok true, touched c self)).
  { rewrite switch_course_unfold. now rewrite (get_rag_resident c self rag Hget). }
  split; [exact Hs|]. exists n. split; [exact Hn|].
  rewrite Hs. cbn [snd]. unfold touched.
  cbn [course_access_count set_course_access_count].
  unfold Dict.get_default. rewrite Hn. apply get_set_same.
Qed.

Lemma evict_least_used_done self v n rag :
  max_preloaded self <= Dict.len (rag_instances self) ->
  py_min (course_access_count self) = Some (v, n) ->
  Dict.get (rag_instances self) v = Some rag ->
  finalize_storages (now self) rag = true ->
  evict_least_used self = (Ok tt, evicted v self).
Proof.
  intros Hfull Hmin Hget Hfin.
  pose proof (evict_least_used_outcome self) as Hev.
  destruct (evict_least_used self) as [r self1]. cbn [fst snd] in Hev.
  inversion Hev; subst; try lia; congruence.
Qed.

(** X7.  The victim is evicted before the new engine is built, so a failed
    admission still costs the victim: when the pool is full, the victim
    finalizes, and the constructor then raises, [get_rag] raises
    ConstructError, the victim is gone from both dicts, the new course is
    not admitted, and the pool holds one engine fewer. *)
Theorem failed_admission_still_evicts
    (cap : Z) (self : RAGManager LightRAG) (c victim : string) (n : Z) (rag : LightRAG) :
  reachable cap self ->
  ~ In c (resident self) ->
  cap <= Dict.len (rag_instances self) ->
  py_min (course_access_count self) = Some (victim, n) ->
  Dict.get (rag_instances self) victim = Some rag ->
  finalize_storages (now self) rag = true ->
  LightRAG_new (S (now self)) ("course_" ++ c) = None ->
  fst (get_rag c self) = Raise ConstructError /\
  resident (snd (get_rag c self)) = remove string_dec victim (resident self) /\
  tracked (snd (get_rag c self)) = remove string_dec victim (tracked self) /\
  ~ In victim (resident (snd (get_rag c self))) /\
  ~ In c (resident (snd (get_rag c self))) /\
  Dict.len (rag_instances (snd (get_rag c self))) = Dict.len (rag_instances self) - 1.
Proof.
  intros Hreach Hc Hfull Hmin Hget Hfin Hnew.
  destruct (reachable_inv _ _ Hreach) as [Hinv Hmax]. rewrite <- Hmax in Hfull.
  assert (Hrun : get_rag c self =
                 (Raise ConstructError, emit (EvConstruct ("course_" ++ c)) (evicted victim self))).
  { rewrite get_rag_unfold. cbv beta zeta.
    pose proof Hc as Hc'. apply DictFacts.contains_false in Hc'. rewrite Hc'.
    rewrite initialize_course_unfold.
    pose proof Hc as Hc2. apply DictFacts.get_None in Hc2. rewrite Hc2.
    rewrite (evict_least_used_done self victim n rag Hfull Hmin Hget Hfin).
    unfold create_instance, bind, call_LightRAG.
    change (now (evicted victim self)) with (now (emit (EvFinalize victim) self)).
    rewrite now_emit, Hnew. reflexivity. }
  rewrite Hrun. cbn [fst snd].
  assert (Hin : In victim (resident self)) by (eapply DictFacts.get_Some_in; eauto).
  assert (Hr : resident (evicted victim self) = remove string_dec victim (resident self))
    by (apply resident_evicted, Hinv).
  assert (Ht : tracked (evicted victim self) = remove string_dec victim (tracked self))
    by (apply tracked_evicted; rewrite <- (inv_aligned _ Hinv); apply Hinv).
  split; [reflexivity|]. split; [exact Hr|]. split; [exact Ht|].
  change (resident (emit (EvConstruct ("course_" ++ c)) (evicted victim self)))
    with (resident (evicted victim self)).
  change (rag_instances (emit (EvConstruct ("course_" ++ c)) (evicted victim self)))
    with (rag_instances (evicted victim self)).
  rewrite Hr. split; [apply remove_In|]. split.
  - intros H. apply in_remove in H. tauto.
  - pose proof (length_remove_key victim _ (inv_nodup _ Hinv) Hin) as Hlen.
    rewrite !len_resident, Hr. lia.
Qed.

(** X8.  A course that is used more than some other resident course is
    never evicted: an admission into a full pool keeps every resident
    course whose count is strictly greater than another resident count. *)
Theorem busier_course_survives
    (cap : Z) (self self' : RAGManager LightRAG) (c hot other : string)
    (rag : LightRAG) (m k : Z) :
  reachable cap self ->
  ~ In c (resident self) ->
  cap <= Dict.len (rag_instances self) ->
  initialize_course c self = (Ok rag, self') \/ get_rag c self = (Ok rag, self') ->
  Dict.get (course_access_count self) hot = Some m ->
  Dict.get (course_access_count self) other = Some k ->
  k < m ->
  In hot (resident self') /\
  Dict.get (rag_instances self') hot = Dict.get (rag_instances self) hot.
Proof.
  intros Hreach Hc Hfull Hrun Hhot Hother Hlt.
  destruct (reachable_inv _ _ Hreach) as [Hinv Hmax]. rewrite <- Hmax in Hfull.
  assert (Hini : exists self1, initialize_course c self = (Ok rag, self1) /\
                               rag_instances self' = rag_instances self1).
  { destruct Hrun as [Hrun|Hrun]; [eauto|].
    rewrite get_rag_unfold in Hrun. cbv beta zeta in Hrun.
    pose proof Hc as Hc'. apply DictFacts.contains_false in Hc'. rewrite Hc' in Hrun.
    destruct (initialize_course_inv c self Hinv) as (_ & _ & Hres).
    destruct (initialize_course c self) as [[rag1|e] self1]; [|discriminate].
    cbn [fst snd] in Hres. rewrite Hres in Hrun. injection Hrun as <- <-. eauto. }
  destruct Hini as (self1 & Hini & Hsame).
  destruct (initialize_course_full c self rag self1 Hinv Hc Hfull Hini)
    as (v & n & Hmin & Hv & _ & Er & _).
  destruct (py_min_first_least _ _ _ Hmin) as (before & after & E & Hb & Ha).
  assert (Hnd : NoDup (Dict.keys (course_access_count self))).
  { change (NoDup (tracked self)). rewrite <- (inv_aligned _ Hinv). apply Hinv. }
  assert (Hvn : Dict.get (course_access_count self) v = Some n)
    by (apply in_get; [exact Hnd | now apply py_min_in]).
  assert (Hle : n <= k).
  { apply get_in in Hother. rewrite E in Hother. apply in_app_or in Hother.
    rewrite Forall_forall in Hb, Ha.
    destruct Hother as [H|[H|H]].
    - specialize (Hb _ H). cbn in Hb. lia.
    - injection H as _ ->. lia.
    - specialize (Ha _ H). cbn in Ha. lia. }
  assert (Hne : hot <> v) by (intros ->; rewrite Hvn in Hhot; injection Hhot as ->; lia).
  assert (Hin : In hot (resident self1)).
  { unfold resident, Dict.keys. rewrite Er, map_app. apply in_or_app. left.
    fold (Dict.keys (Dict.del (rag_instances self) v)).
    rewrite (DictFacts.keys_del _ _ (inv_nodup _ Hinv)).
    apply in_in_remove; [exact Hne|].
    change (In hot (resident self)). rewrite (inv_aligned _ Hinv).
    apply DictFacts.contains_true. eapply DictFacts.in_item_contains.
    apply get_in. eauto. }
  unfold resident at 1. rewrite Hsame. split; [exact Hin|].
  rewrite Er. assert (Hhc : hot <> c).
  { intros ->. apply Hc. rewrite (inv_aligned _ Hinv).
    apply DictFacts.contains_true. eapply DictFacts.in_item_contains.
    apply get_in. eauto. }
  rewrite get_app_old by exact Hhc. now apply get_del_other.
Qed.

Lemma get_rag_room self c rag :
  pool_inv self ->
  ~ In c (resident self) ->
  Dict.len (rag_instances self) < max_preloaded self ->
  LightRAG_new (now self) ("course_" ++ c) = Some rag ->
  initialize_storages (S (now self)) rag = true ->
  get_rag c self = (Ok rag, touched c (registered c rag self)) /\
  rag_instances (touched c (registered c rag self)) =
    (rag_instances self ++ [(c, rag)])%list /\
  course_access_count (touched c (registered c rag self)) =
    (course_access_count self ++ [(c, 1)])%list.
Proof.
  intros Hinv Hc Hroom Hnew Hinit.
  assert (Hini : initialize_course c self = (Ok rag, registered c rag self)).
  { rewrite initialize_course_unfold.
    pose proof Hc as Hc'. apply DictFacts.get_None in Hc'. rewrite Hc'.
    rewrite (evict_least_used_room self Hroom).
    unfold create_instance, bind, call_LightRAG. rewrite Hnew.
    unfold call_initialize_storages. rewrite now_emit, Hinit. reflexivity. }
  destruct (registered_fresh c rag self (inv_aligned _ Hinv) Hc) as [Er Et].
  assert (Hget : Dict.get (rag_instances (registered c rag self)) c = Some rag)
    by (rewrite Er; now apply get_app_new).
  split.
  { rewrite get_rag_unfold. cbv beta zeta.
    apply DictFacts.contains_false in Hc. now rewrite Hc, Hini, Hget. }
  split; [exact Er|].
  unfold touched. cbn [course_access_count set_course_access_count].
  assert (Hnt : ~ In c (Dict.keys (course_access_count self))).
  { change (~ In c (tracked self)). now rewrite <- (inv_aligned _ Hinv). }
  unfold Dict.get_default. rewrite Et, (get_app_new _ _ _ Hnt).
  clear - Hnt. induction (course_access_count self) as [|[k v] r IH]; cbn in *.
  - now rewrite String.eqb_refl.
  - destruct (String.eqb_spec c k) as [->|Hne]; [tauto|]. rewrite IH; tauto.
Qed.

(** X9.  An admission that finds room evicts nobody: no engine is asked to
    finalize, the resident courses keep their order and the new course is
    appended after them with count 1. *)
Theorem admission_with_room
    (cap : Z) (self : RAGManager LightRAG) (c : string) (rag : LightRAG) :
  reachable cap self ->
  ~ In c (resident self) ->
  Dict.len (rag_instances self) < cap ->
  LightRAG_new (now self) ("course_" ++ c) = Some rag ->
  initialize_storages (S (now self)) rag = true ->
  fst (get_rag c self) = Ok rag /\
  rag_instances (snd (get_rag c self)) = (rag_instances self ++ [(c, rag)])%list /\
  course_access_count (snd (get_rag c self)) =
    (course_access_count self ++ [(c, 1)])%list /\
  finalized (trace (snd (get_rag c self))) = finalized (trace self).
Proof.
  intros Hreach Hc Hroom Hnew Hinit.
  destruct (reachable_inv _ _ Hreach) as [Hinv Hmax]. rewrite <- Hmax in Hroom.
  destruct (get_rag_room self c rag Hinv Hc Hroom Hnew Hinit) as (Hrun & Er & Et).
  rewrite Hrun. cbn [fst snd]. conj_steps.
  unfold finalized, touched, registered. cbn. rewrite !flat_map_app. cbn.
  now rewrite !app_nil_r.
Qed.

(** X16.  Order of the engine calls of an admission into a full pool: the
    victim is finalized first, then the new engine is constructed and
    initialised, then the registration is logged; nothing else happens.  So
    the engine that leaves is shut down before the one that enters exists. *)
Theorem full_admission_call_order
    (cap : Z) (self self' : RAGManager LightRAG) (c : string) (rag : LightRAG) :
  reachable cap self ->
  ~ In c (resident self) ->
  cap <= Dict.len (rag_instances self) ->
  initialize_course c self = (Ok rag, self') ->
  exists victim,
    In victim (resident self) /\
    ~ In victim (resident self') /\
    trace self' =
      (trace self ++
       [EvFinalize victim; EvConstruct ("course_" ++ c); EvInitialize c;
        EvLog INFO (MsgInitialized c)])%list.
Proof.
  intros Hreach Hc Hfull Hrun.
  destruct (reachable_inv _ _ Hreach) as [Hinv Hmax]. rewrite <- Hmax in Hfull.
  destruct (initialize_course_full c self rag self' Hinv Hc Hfull Hrun)
    as (v & n & Hmin & Hv & -> & Er & _).
  exists v. split; [exact Hv|]. split.
  - unfold resident, Dict.keys. rewrite Er, map_app.
    fold (Dict.keys (Dict.del (rag_instances self) v)).
    rewrite (DictFacts.keys_del _ _ (inv_nodup _ Hinv)).
    intros H. apply in_app_or in H. destruct H as [H|[H|[]]].
    + now apply remove_In in H.
    + cbn in H. subst. tauto.
  - unfold registered, evicted. cbn. now rewrite <- !app_assoc.
Qed.

Lemma initialize_course_closed self c :
  rag_instances self = [] ->
  course_access_count self = [] ->
  max_preloaded self <= 0 ->
  initialize_course c self = (Raise ValueError, self).
Proof.
  intros Hr Ht Hcap. rewrite initialize_course_unfold. rewrite Hr. cbn [Dict.get].
  unfold evict_least_used, bind, get_self. rewrite Hr, Ht. cbn.
  destruct (0 >=? max_preloaded self) eqn:E; [reflexivity|].
  rewrite Z.geb_leb in E. apply Z.leb_gt in E. lia.
Qed.

Lemma gather_closed ids self :
  rag_instances self = [] ->
  course_access_count self = [] ->
  max_preloaded self <= 0 ->
  gather (map initialize_course ids) self =
    (match ids with [] => Ok tt | _ :: _ => Raise ValueError end, self).
Proof.
  intros Hr Ht Hcap. destruct ids as [|c ids]; cbn [map gather]; auto.
  now rewrite (initialize_course_closed self c Hr Ht Hcap).
Qed.

(** X10.  A manager built with a negative [max_preloaded] never admits
    anything: [get_rag] raises ValueError for every course.  Unlike with
    capacity 0, [preload_courses] raises ValueError too as soon as the
    slice [course_ids[:max_preloaded]], which then drops ids from the end
    of the list, is not empty; no constructor call is ever made. *)
Theorem negative_capacity_raises
    (cap : Z) (self : RAGManager LightRAG) (c : string) (ids : list string) :
  reachable cap self ->
  cap < 0 ->
  rag_instances self = [] /\
  course_access_count self = [] /\
  get_rag c self = (Raise ValueError, self) /\
  slice_to cap ids = firstn (length ids - Z.to_nat (- cap)) ids /\
  fst (preload_courses ids self) =
    (if Z.of_nat (length ids) + cap <=? 0 then Ok tt else Raise ValueError) /\
  rag_instances (snd (preload_courses ids self)) = [] /\
  constructed (trace (snd (preload_courses ids self))) = constructed (trace self).
Proof.
  intros Hreach Hneg. destruct (reachable_inv _ _ Hreach) as [[Ha Hn Hcap] Hmax].
  assert (Hr : rag_instances self = []).
  { destruct (rag_instances self); [auto|].
    unfold Dict.len in Hcap. cbn [length] in Hcap. lia. }
  assert (Ht : course_access_count self = []).
  { unfold resident, tracked in Ha. rewrite Hr in Ha.
    destruct (course_access_count self); [auto | discriminate]. }
  assert (Hle : max_preloaded self <= 0) by lia.
  assert (Hslice : slice_to cap ids = firstn (length ids - Z.to_nat (- cap)) ids).
  { unfold slice_to. destruct (Z.ltb_spec cap 0); [|lia]. f_equal. lia. }
  split; [exact Hr|]. split; [exact Ht|]. split.
  { rewrite get_rag_unfold. cbv beta zeta. rewrite Hr. cbn [Dict.contains Dict.get].
    now rewrite (initialize_course_closed self c Hr Ht Hle). }
  split; [exact Hslice|].
  rewrite preload_courses_unfold. cbv zeta.
  rewrite (gather_closed _ self Hr Ht Hle). rewrite Hmax.
  destruct (slice_to cap ids) as [|x l] eqn:E; cbn [map length fst snd].
  - split; [|split; [exact Hr|]].
    + destruct (Z.leb_spec (Z.of_nat (length ids) + cap) 0); [reflexivity|].
      apply (f_equal (@length string)) in Hslice.
      rewrite length_firstn in Hslice. cbn [length] in Hslice. lia.
    + rewrite constructed_emit. now rewrite app_nil_r.
  - split; [|split; [exact Hr | reflexivity]].
    destruct (Z.leb_spec (Z.of_nat (length ids) + cap) 0); [|reflexivity].
    apply (f_equal (@length string)) in Hslice.
    rewrite length_firstn in Hslice. cbn [length] in Hslice. lia.
Qed.

Lemma gather_resident ids self :
  (forall c, In c ids -> In c (resident self)) ->
  gather (map initialize_course ids) self = (Ok tt, self).
Proof.
  induction ids as [|c ids IH]; intros Hall; cbn [map gather]; auto.
  rewrite initialize_course_unfold.
  destruct (Dict.get (rag_instances self) c) as [rag|] eqn:Hget.
  - apply IH. intros c' H. apply Hall. now right.
  - apply DictFacts.get_None in Hget. exfalso. apply Hget, Hall. now left.
Qed.

(** X11.  Preloading courses that are already resident does nothing: when
    every retained id is resident, [preload_courses] returns normally, makes
    no engine call, changes no dict and no count, and only logs the number
    of retained ids. *)
Theorem preload_resident_courses_is_noop
    (cap : Z) (self : RAGManager LightRAG) (ids : list string) :
  reachable cap self ->
  (forall c, In c (slice_to cap ids) -> In c (resident self)) ->
  preload_courses ids self =
    (Ok tt,
     emit (EvLog INFO (MsgPreloaded (Z.of_nat (length (slice_to cap ids))))) self).
Proof.
  intros Hreach Hall. destruct (reachable_inv _ _ Hreach) as [_ Hmax].
  rewrite preload_courses_unfold. cbv zeta. rewrite Hmax.
  rewrite (gather_resident (slice_to cap ids) self Hall), length_map. reflexivity.
Qed.

(** X13.  [cleanup] forgets everything: whatever the pool held and whatever
    the counts were, the first [get_rag] after a [cleanup] (capacity at
    least 1, engine buildable) leaves exactly that one course in the pool,
    with count 1. *)
Theorem get_rag_after_cleanup
    (self : RAGManager LightRAG) (c : string) (rag : LightRAG) :
  1 <= max_preloaded self ->
  LightRAG_new (now (snd (cleanup self))) ("course_" ++ c) = Some rag ->
  initialize_storages (S (now (snd (cleanup self)))) rag = true ->
  fst (get_rag c (snd (cleanup self))) = Ok rag /\
  rag_instances (snd (get_rag c (snd (cleanup self)))) = [(c, rag)] /\
  course_access_count (snd (get_rag c (snd (cleanup self)))) = [(c, 1)].
Proof.
  intros Hcap Hnew Hinit.
  assert (Hr : rag_instances (snd (cleanup self)) = []) by now rewrite cleanup_run.
  assert (Ht : course_access_count (snd (cleanup self)) = []) by now rewrite cleanup_run.
  assert (Hm : max_preloaded (snd (cleanup self)) = max_preloaded self)
    by now rewrite cleanup_run.
  destruct (get_rag_room (snd (cleanup self)) c rag) as (Hrun & Er & Et); auto.
  - now apply pool_inv_empty.
  - unfold resident. rewrite Hr. cbn. tauto.
  - unfold Dict.len. rewrite Hr, Hm. cbn. lia.
  - rewrite Hrun. cbn [fst snd]. rewrite Er, Et, Hr, Ht. auto.
Qed.

End Extras.

(* ------------------------------------------------------------------ *)
(** ** Errors, ties and unused courses *)

Section MoreExtras.
Context {LightRAG : Type} {api : EngineAPI LightRAG}.
Implicit Types (self : RAGManager LightRAG) (c : string).

Lemma initialize_course_errors self c :
  pool_inv self ->
  match fst (initialize_course c self) with
  | Raise (KeyError _) => False
  | Raise ValueError => max_preloaded self <= 0
  | _ => True
  end.
Proof.
  intros Hinv. rewrite initialize_course_unfold.
  destruct (Dict.get (rag_instances self) c) as [rag|] eqn:Hget; [exact I|].
  pose proof (evict_least_used_outcome self) as Hev.
  destruct (evict_least_used self) as [r self1]. cbn [fst snd] in Hev.
  inversion Hev as [Hlt Hr Hs|Hfull Hmin Hr Hs|v n Hfull Hmin Hv Hr Hs
                   |v n rag Hfull Hmin Hv Hfin Hr Hs|v n rag Hfull Hmin Hv Hfin Hr Hs];
    subst; cbn [fst].
  - pose proof (create_instance_outcome c self1) as Hcr.
    destruct (create_instance c self1) as [r2 s2]. cbn [fst snd] in Hcr.
    now inversion Hcr.
  - destruct (course_access_count self1) eqn:Et; [|discriminate].
    destruct Hinv as [Ha _ _]. unfold resident, tracked in Ha. rewrite Et in Ha.
    destruct (rag_instances self1); [|discriminate].
    unfold Dict.len in Hfull. cbn in Hfull. exact Hfull.
  - apply DictFacts.get_None in Hv. apply Hv.
    change (In v (resident self1)). rewrite (inv_aligned _ Hinv).
    apply DictFacts.contains_true. eapply DictFacts.in_item_contains.
    apply py_min_in. eauto.
  - exact I.
  - pose proof (create_instance_outcome c (evicted v self)) as Hcr.
    destruct (create_instance c (evicted v self)) as [r2 s2]. cbn [fst snd] in Hcr.
    now inversion Hcr.
Qed.

(** X12.  In a manager built with a positive capacity, [get_rag] can only
    fail because of the engine: it never raises KeyError (the lookups and
    deletions of lines 108-110 and 158 always find their key) and never
    ValueError; what it raises is an exception of the constructor, of
    [initialize_storages] or of [finalize_storages]. *)
Theorem get_rag_fails_only_with_the_engine
    (cap : Z) (self : RAGManager LightRAG) (c : string) :
  reachable cap self ->
  1 <= cap ->
  fst (get_rag c self) = Raise ConstructError \/
  fst (get_rag c self) = Raise InitializeError \/
  fst (get_rag c self) = Raise FinalizeError \/
  exists rag, fst (get_rag c self) = Ok rag /\
              Dict.get (rag_instances (snd (get_rag c self))) c = Some rag.
Proof.
  intros Hreach Hcap. destruct (reachable_inv _ _ Hreach) as [Hinv Hmax].
  destruct (get_rag_inv c self Hinv) as (_ & _ & Hres).
  destruct (fst (get_rag c self)) as [rag|e] eqn:Hfst.
  { right. right. right. eauto. }
  rewrite get_rag_unfold in Hfst. cbv beta zeta in Hfst.
  destruct (Dict.contains (rag_instances self) c) eqn:Hc.
  - apply DictFacts.contains_true in Hc. tauto.
  - pose proof (initialize_course_errors self c Hinv) as Herr.
    destruct (initialize_course_inv c self Hinv) as (_ & _ & Hres1).
    destruct (initialize_course c self) as [[rag|e1] self1]; cbn [fst snd] in *.
    + rewrite Hres1 in Hfst. discriminate.
    + injection Hfst as <-. destruct e1; auto; [lia | tauto].
Qed.

Lemma min_from_head (best : string * Z) (items : list (string * Z)) :
  Forall (fun kv => snd best <= snd kv) items -> min_from best items = best.
Proof.
  induction 1 as [|x r Hx Hr IH]; cbn; auto.
  destruct (Z.ltb_spec (snd x) (snd best)); [lia | exact IH].
Qed.

(** X15.  When no resident course has a smaller count than the oldest
    one, eviction is first in, first out: an admission into a full pool
    drops the first key of the dict and appends the new course. *)
Theorem eviction_is_fifo_on_ties
    (cap : Z) (self self' : RAGManager LightRAG) (c oldest : string)
    (rag : LightRAG) (n : Z) (rest : list (string * Z)) :
  reachable cap self ->
  ~ In c (resident self) ->
  cap <= Dict.len (rag_instances self) ->
  initialize_course c self = (Ok rag, self') ->
  course_access_count self = (oldest, n) :: rest ->
  Forall (fun kv => n <= snd kv) rest ->
  resident self' = (Dict.keys rest ++ [c])%list /\
  course_access_count self' = (rest ++ [(c, 0)])%list.
Proof.
  intros Hreach Hc Hfull Hrun Hcounts Hties.
  destruct (reachable_inv _ _ Hreach) as [Hinv Hmax]. rewrite <- Hmax in Hfull.
  destruct (initialize_course_full c self rag self' Hinv Hc Hfull Hrun)
    as (v & m & Hmin & Hv & _ & Er & Et).
  rewrite Hcounts in Hmin. cbn [py_min] in Hmin.
  rewrite (min_from_head (oldest, n) rest Hties) in Hmin. injection Hmin as <- <-.
  assert (Hdel : Dict.del (course_access_count self) oldest = rest).
  { rewrite Hcounts. cbn. now rewrite String.eqb_refl. }
  split.
  - unfold resident, Dict.keys. rewrite Er, map_app. cbn [map fst]. f_equal.
    fold (Dict.keys (Dict.del (rag_instances self) oldest)).
    fold (Dict.keys rest).
    rewrite (DictFacts.keys_del _ _ (inv_nodup _ Hinv)).
    change (remove string_dec oldest (resident self) = Dict.keys rest).
    rewrite (inv_aligned _ Hinv). unfold tracked.
    assert (Hnd : NoDup (Dict.keys (course_access_count self))).
    { change (NoDup (tracked self)). rewrite <- (inv_aligned _ Hinv). apply Hinv. }
    rewrite <- (DictFacts.keys_del _ _ Hnd). now rewrite Hdel.
  - now rewrite Et, Hdel.
Qed.

Lemma initialize_course_admits self c rag self1 :
  pool_inv self ->
  ~ In c (resident self) ->
  initialize_course c self = (Ok rag, self1) ->
  exists others,
    course_access_count self1 = (others ++ [(c, 0)])%list /\
    forall kv, In kv others -> In kv (course_access_count self).
Proof.
  intros Hinv Hc Hrun. rewrite initialize_course_unfold in Hrun.
  pose proof Hc as Hc'. apply DictFacts.get_None in Hc'. rewrite Hc' in Hrun.
  pose proof (evict_least_used_outcome self) as Hev.
  destruct (evict_least_used self) as [[[]|e] s1]; [|discriminate].
  cbn [fst snd] in Hev.
  destruct (evict_outcome_inv _ _ _ Hev Hinv) as (Hinv1 & _ & Hsub & Hroom).
  assert (Hc1 : ~ In c (resident s1)) by (intros H; apply Hc, Hsub, H).
  pose proof (create_instance_outcome c s1) as Hcr.
  rewrite Hrun in Hcr. cbn [fst snd] in Hcr.
  destruct (create_outcome_inv _ _ _ _ Hcr Hinv1 Hc1 (Hroom eq_refl)) as (_ & _ & _ & Et).
  exists (course_access_count s1). split; [exact Et|].
  inversion Hev; subst; auto.
  intros kv Hin. cbn in Hin. eapply in_del; eauto.
Qed.

(** X17.  A course that was admitted by [initialize_course] or
    [preload_courses] and never used is the next victim: if every other
    count is at least 1, the next admission into the full pool evicts
    exactly that course. *)
Theorem unused_course_is_next_victim
    (cap : Z) (self self1 self2 : RAGManager LightRAG) (c next : string)
    (rag rag2 : LightRAG) :
  reachable cap self ->
  Forall (fun kv => 1 <= snd kv) (course_access_count self) ->
  ~ In c (resident self) ->
  initialize_course c self = (Ok rag, self1) ->
  cap <= Dict.len (rag_instances self1) ->
  ~ In next (resident self1) ->
  get_rag next self1 = (Ok rag2, self2) ->
  ~ In c (resident self2) /\
  resident self2 = (remove string_dec c (resident self1) ++ [next])%list.
Proof.
  intros Hreach Hused Hc Hrun Hfull Hnext Hrun2.
  destruct (reachable_inv _ _ Hreach) as [Hinv Hmax].
  destruct (initialize_course_inv c self Hinv) as (Hinv1 & Hmax1 & _).
  rewrite Hrun in Hinv1, Hmax1. cbn [snd] in Hinv1, Hmax1.
  destruct (initialize_course_admits self c rag self1 Hinv Hc Hrun)
    as (others & Et & Hsub).
  assert (Hfull1 : max_preloaded self1 <= Dict.len (rag_instances self1)) by lia.
  rewrite get_rag_unfold in Hrun2. cbv beta zeta in Hrun2.
  pose proof Hnext as Hn'. apply DictFacts.contains_false in Hn'. rewrite Hn' in Hrun2.
  destruct (initialize_course next self1) as [[rag3|e] s3] eqn:Hini; [|discriminate].
  destruct (initialize_course_full next self1 rag3 s3 Hinv1 Hnext Hfull1 Hini)
    as (v & m & Hmin & Hv & _ & Er & _).
  assert (Hs2 : resident self2 = resident s3).
  { destruct (Dict.get (rag_instances s3) next); injection Hrun2 as _ <-; reflexivity. }
  destruct (py_min_first_least _ _ _ Hmin) as (before & after & E & Hb & Ha).
  assert (Hvc : v = c).
  { assert (Hin0 : In (c, 0) (course_access_count self1))
      by (rewrite Et; apply in_or_app; right; now left).
    assert (Hm : m <= 0).
    { rewrite E in Hin0. rewrite Forall_forall in Hb, Ha.
      apply in_app_or in Hin0. destruct Hin0 as [H|[H|H]].
      - specialize (Hb _ H). cbn in Hb. lia.
      - injection H as _ ->. lia.
      - specialize (Ha _ H). cbn in Ha. lia. }
    pose proof (py_min_in _ _ _ Hmin) as Hvm. rewrite Et in Hvm.
    apply in_app_or in Hvm. destruct Hvm as [H|[H|[]]].
    - apply Hsub in H. rewrite Forall_forall in Hused. specialize (Hused _ H).
      cbn in Hused. lia.
    - now injection H as <- _. }
  subst v.
  assert (Hr3 : resident s3 = (remove string_dec c (resident self1) ++ [next])%list).
  { unfold resident, Dict.keys. rewrite Er, map_app. cbn [map fst]. f_equal.
    apply DictFacts.keys_del, Hinv1. }
  rewrite Hs2, Hr3. split; [|reflexivity].
  intros H. apply in_app_or in H. destruct H as [H|[H|[]]].
  - now apply remove_In in H.
  - subst next. tauto.
Qed.

(** X22.  Preloading at most [max_preloaded] distinct buildable courses
    into an empty pool admits them all, in input order, each with count 0:
    nothing is truncated, and the constructor is called once per course. *)
Theorem preload_admits_all_when_they_fit
    (self : RAGManager LightRAG) (ids : list string) :
  rag_instances self = [] ->
  course_access_count self = [] ->
  Z.of_nat (length ids) <= max_preloaded self ->
  NoDup ids ->
  (forall c, In c ids -> forall t, exists rag,
     LightRAG_new t ("course_" ++ c) = Some rag /\
     forall t', initialize_storages t' rag = true) ->
  fst (preload_courses ids self) = Ok tt /\
  resident (snd (preload_courses ids self)) = ids /\
  course_access_count (snd (preload_courses ids self)) = map (fun c => (c, 0)) ids /\
  constructed (trace (snd (preload_courses ids self))) =
    (constructed (trace self) ++ map (fun c => ("course_" ++ c)%string) ids)%list.
Proof.
  intros Hr Hc Hfit Hnd Hall.
  assert (Hslice : slice_to (max_preloaded self) ids = ids).
  { rewrite slice_to_nonneg by lia. apply firstn_all2. lia. }
  destruct (preload_courses_empty (fun _ => true) self ids Hr Hc)
    as (Hok & Hst); auto.
  { lia. }
  { intros c Hin _. apply Hall. now rewrite Hslice in Hin. }
  { discriminate. }
  rewrite forallb_all in Hok.
  destruct (fst (preload_courses ids self)) as [[]|e]; [|discriminate].
  rewrite Hslice in Hst. split; [reflexivity | exact Hst].
Qed.

End MoreExtras.

(* ------------------------------------------------------------------ *)
(** ** Properties of the route layer *)

Section RouteProperties.
Context {LightRAG : Type} {api : EngineAPI LightRAG} {queries : QueryAPI LightRAG}.
Implicit Types (self : RAGManager LightRAG).

Lemma pass_through_state {A : Type} c (query : nat -> LightRAG -> option A) self :
  snd (pass_through c query self) = snd (get_rag c self).
Proof.
  unfold pass_through. destruct (get_rag c self) as [[rag|e] self1]; cbn [snd]; auto.
  now destruct (query (now self1) rag).
Qed.

Lemma source_graph_state source_id c self :
  snd (route_get_source_graph source_id c self) = snd (get_rag c self).
Proof.
  unfold route_get_source_graph, source_graph_body.
  destruct (get_rag c self) as [[rag|e] self1]; cbn [snd]; auto.
  destruct (get_nodes_and_relationships_by_file_path (now self1) rag source_id)
    as [[[|n nodes] rels]|]; reflexivity.
Qed.

Lemma serve_state r self : serve r self = snd (get_rag (request_course r) self).
Proof.
  destruct r; cbn [serve request_course];
    unfold route_get_graph_labels, route_get_knowledge_graph, route_get_node_neighbors;
    auto using pass_through_state, source_graph_state.
Qed.

(** X18.  [get_source_graph] never answers 404.  Its [except Exception]
    clause also catches the [HTTPException(404)] raised two lines above, so
    a source without nodes is reported as a 500 whose detail is the text of
    that 404; every failure of the handler is a 500, and a reply that is
    returned always carries at least one node. *)
Theorem source_graph_never_answers_404
    (source_id course_id : string) (self : RAGManager LightRAG) :
  status_of (fst (route_get_source_graph source_id course_id self)) <> Some 404 /\
  match fst (route_get_source_graph source_id course_id self) with
  | Return (nodes, _) => nodes <> []
  | Escape e => exists cause, e = HTTPException 500 (StrOf cause)
  end /\
  match get_rag course_id self with
  | (Ok rag, self1) =>
      match get_nodes_and_relationships_by_file_path (now self1) rag source_id with
      | Some ([], _) =>
          fst (route_get_source_graph source_id course_id self) =
            Escape (HTTPException 500
                      (StrOf (HTTPException 404 (NoNodesFound source_id))))
      | _ => True
      end
  | (Raise e, _) =>
      fst (route_get_source_graph source_id course_id self) =
        Escape (HTTPException 500 (StrOf (ManagerRaised e)))
  end.
Proof.
  unfold route_get_source_graph, source_graph_body.
  destruct (get_rag course_id self) as [[rag|e] self1]; cbn [fst status_of].
  - destruct (get_nodes_and_relationships_by_file_path (now self1) rag source_id)
      as [[[|n nodes] rels]|]; cbn [fst status_of];
      (split; [discriminate|]); (split; [|exact I || reflexivity]);
      try discriminate; eauto.
  - split; [discriminate|]. split; [eauto | reflexivity].
Qed.

(** X19.  The graph routes keep the invariants of the manager: after any
    operations on a fresh manager followed by any requests to the four
    routes, whatever they answered, the pool holds at most [max_preloaded]
    engines (none when that bound is not positive) and the two dicts have
    the same keys. *)
Theorem routes_keep_pool_bounded (cap : Z) (ops : list op) (rs : list request) :
  Dict.len (rag_instances (serve_all rs (run_ops ops (RAGManager_init cap))))
    <= Z.max 0 cap /\
  resident (serve_all rs (run_ops ops (RAGManager_init cap))) =
  tracked (serve_all rs (run_ops ops (RAGManager_init (LightRAG := LightRAG) cap))).
Proof.
  destruct (run_ops_inv ops (RAGManager_init cap) (pool_inv_init cap)) as (Hinv & Hmax).
  cbn [max_preloaded RAGManager_init] in Hmax.
  remember (run_ops ops (RAGManager_init cap)) as self eqn:Hs. clear Hs.
  assert (H : pool_inv (serve_all rs self) /\ max_preloaded (serve_all rs self) = cap).
  { revert self Hinv Hmax. induction rs as [|r rs IH]; intros self Hinv Hmax; cbn.
    - now split.
    - apply IH; rewrite serve_state.
      + apply get_rag_inv, Hinv.
      + destruct (get_rag_inv (request_course r) self Hinv) as (_ & H & _). congruence. }
  destruct H as ([Ha _ Hlen] & Hm). rewrite Hm in Hlen. now split.
Qed.

(** X20.  Every request to a graph route is one use of its course: for a
    resident course the request changes the manager exactly as a [get_rag]
    hit does, adding 1 to the count of the course, also when the engine
    query raises or the source has no nodes and the reply is an error. *)
Theorem request_counts_as_use
    (cap : Z) (self : RAGManager LightRAG) (r : request) :
  reachable cap self ->
  In (request_course r) (resident self) ->
  serve r self = touched (request_course r) self /\
  exists n,
    Dict.get (course_access_count self) (request_course r) = Some n /\
    Dict.get (course_access_count (serve r self)) (request_course r) = Some (n + 1).
Proof.
  intros Hreach Hin. destruct (reachable_inv _ _ Hreach) as [Hinv _].
  destruct (Dict.get (rag_instances self) (request_course r)) as [rag|] eqn:Hget;
    [|apply DictFacts.get_None in Hget; tauto].
  assert (Hin' : In (request_course r) (tracked self))
    by now rewrite <- (inv_aligned _ Hinv).
  destruct (tracked_has_count self _ Hin') as [n Hn].
  assert (Hs : serve r self = touched (request_course r) self).
  { rewrite serve_state. now rewrite (get_rag_resident _ self rag Hget). }
  split; [exact Hs|]. exists n. split; [exact Hn|].
  rewrite Hs. unfold touched. cbn [course_access_count set_course_access_count].
  unfold Dict.get_default. rewrite Hn. apply get_set_same.
Qed.

End RouteProperties.

(* ------------------------------------------------------------------ *)
(** ** The further properties at work on the concrete engine *)

Lemma demo_skewed_reachable : reachable (api := Demo.api) 2 Demo.skewed.
Proof. exists [OpGet "A"; OpGet "A"; OpGet "B"]. reflexivity. Qed.

Lemma demo_roomy_reachable : reachable (api := Demo.api) 3 Demo.roomy.
Proof. exists [OpGet "A"]. reflexivity. Qed.

Lemma demo_warm_reachable : reachable (api := Demo.api) 2 DemoRoutes.warm.
Proof. exists [OpGet "A"; OpGet "B"; OpGet "A"; OpGet "A"]. reflexivity. Qed.

Lemma demo_crowded_reachable : reachable (api := Demo.api) 2 DemoRoutes.crowded.
Proof. exists [OpGet "A"; OpGet "B"]. reflexivity. Qed.

Ltac demo_in := cbn; tauto.

(** A hit on A, which has count 2, in the pool A, B. *)
Lemma get_rag_hit_demo :
  reachable (api := Demo.api) 2 Demo.skewed /\
  In "A" (resident Demo.skewed) /\
  exists rag n,
    Dict.get (rag_instances Demo.skewed) "A" = Some rag /\
    Dict.get (course_access_count Demo.skewed) "A" = Some n /\
    fst (get_rag (api := Demo.api) "A" Demo.skewed) = Ok rag /\
    rag_instances (snd (get_rag (api := Demo.api) "A" Demo.skewed)) =
      rag_instances Demo.skewed /\
    trace (snd (get_rag (api := Demo.api) "A" Demo.skewed)) = trace Demo.skewed /\
    tracked (snd (get_rag (api := Demo.api) "A" Demo.skewed)) = tracked Demo.skewed /\
    Dict.get (course_access_count (snd (get_rag (api := Demo.api) "A" Demo.skewed))) "A" =
      Some (n + 1) /\
    forall c', c' <> "A" ->
      Dict.get (course_access_count (snd (get_rag (api := Demo.api) "A" Demo.skewed))) c' =
      Dict.get (course_access_count Demo.skewed) c'.
Proof.
  assert (H2 : In "A" (resident Demo.skewed)) by demo_in.
  split; [exact demo_skewed_reachable|]. split; [exact H2|].
  exact (get_rag_hit (api := Demo.api) 2 Demo.skewed "A" demo_skewed_reachable H2).
Defined.

(** B is initialised in the pool holding A; a second call changes nothing. *)
Lemma initialize_course_idempotent_demo :
  reachable (api := Demo.api) 3 Demo.roomy /\
  initialize_course (api := Demo.api) "B" Demo.roomy =
    (Ok "course_B", Demo.run [OpGet "A"; OpInitialize "B"] (Demo.fresh 3)) /\
  initialize_course (api := Demo.api) "B"
      (Demo.run [OpGet "A"; OpInitialize "B"] (Demo.fresh 3)) =
    (Ok "course_B", Demo.run [OpGet "A"; OpInitialize "B"] (Demo.fresh 3)) /\
  fst (get_rag (api := Demo.api) "B"
         (Demo.run [OpGet "A"; OpInitialize "B"] (Demo.fresh 3))) = Ok "course_B" /\
  constructed (trace (snd (get_rag (api := Demo.api) "B"
         (Demo.run [OpGet "A"; OpInitialize "B"] (Demo.fresh 3))))) =
    constructed (trace (Demo.run [OpGet "A"; OpInitialize "B"] (Demo.fresh 3))).
Proof.
  split; [exact demo_roomy_reachable|]. split; [reflexivity|].
  exact (initialize_course_idempotent (api := Demo.api) 3 Demo.roomy _ "B" "course_B"
           demo_roomy_reachable eq_refl).
Defined.

Lemma admitted_course_starts_at_zero_demo :
  reachable (api := Demo.api) 3 Demo.roomy /\
  ~ In "B" (resident Demo.roomy) /\
  initialize_course (api := Demo.api) "B" Demo.roomy =
    (Ok "course_B", Demo.run [OpGet "A"; OpInitialize "B"] (Demo.fresh 3)) /\
  Dict.get (course_access_count (Demo.run [OpGet "A"; OpInitialize "B"] (Demo.fresh 3)))
    "B" = Some 0 /\
  get_rag (api := Demo.api) "B" Demo.roomy =
    (Ok "course_B",
     touched "B" (Demo.run [OpGet "A"; OpInitialize "B"] (Demo.fresh 3))) /\
  Dict.get (course_access_count (snd (get_rag (api := Demo.api) "B" Demo.roomy))) "B" =
    Some 1.
Proof.
  assert (H2 : ~ In "B" (resident Demo.roomy)) by (apply demo_not_in; reflexivity).
  split; [exact demo_roomy_reachable|]. split; [exact H2|]. split; [reflexivity|].
  exact (admitted_course_starts_at_zero (api := Demo.api) 3 Demo.roomy _ "B" "course_B"
           demo_roomy_reachable H2 eq_refl).
Defined.

Lemma switch_course_hit_demo :
  reachable (api := Demo.api) 2 Demo.skewed /\
  In "A" (resident Demo.skewed) /\
  switch_course (api := Demo.api) "A" Demo.skewed = (Ok true, touched "A" Demo.skewed) /\
  exists n,
    Dict.get (course_access_count Demo.skewed) "A" = Some n /\
    Dict.get (course_access_count (snd (switch_course (api := Demo.api) "A" Demo.skewed)))
      "A" = Some (n + 1).
Proof.
  assert (H2 : In "A" (resident Demo.skewed)) by demo_in.
  split; [exact demo_skewed_reachable|]. split; [exact H2|].
  exact (switch_course_hit (api := Demo.api) 2 Demo.skewed "A" demo_skewed_reachable H2).
Defined.

(** The pool A, B is full; "bad" cannot be built: A is lost for nothing. *)
Lemma failed_admission_still_evicts_demo :
  reachable (api := Demo.api) 2 DemoRoutes.crowded /\
  ~ In "bad" (resident DemoRoutes.crowded) /\
  2 <= Dict.len (rag_instances DemoRoutes.crowded) /\
  py_min (course_access_count DemoRoutes.crowded) = Some ("A", 1) /\
  Dict.get (rag_instances DemoRoutes.crowded) "A" = Some "course_A" /\
  finalize_storages (EngineAPI := Demo.api) (now DemoRoutes.crowded) "course_A" = true /\
  LightRAG_new (EngineAPI := Demo.api) (S (now DemoRoutes.crowded)) ("course_" ++ "bad") = None /\
  fst (get_rag (api := Demo.api) "bad" DemoRoutes.crowded) = Raise ConstructError /\
  resident (snd (get_rag (api := Demo.api) "bad" DemoRoutes.crowded)) =
    remove string_dec "A" (resident DemoRoutes.crowded) /\
  tracked (snd (get_rag (api := Demo.api) "bad" DemoRoutes.crowded)) =
    remove string_dec "A" (tracked DemoRoutes.crowded) /\
  ~ In "A" (resident (snd (get_rag (api := Demo.api) "bad" DemoRoutes.crowded))) /\
  ~ In "bad" (resident (snd (get_rag (api := Demo.api) "bad" DemoRoutes.crowded))) /\
  Dict.len (rag_instances (snd (get_rag (api := Demo.api) "bad" DemoRoutes.crowded))) =
    Dict.len (rag_instances DemoRoutes.crowded) - 1.
Proof.
  assert (H2 : ~ In "bad" (resident DemoRoutes.crowded)) by (apply demo_not_in; reflexivity).
  assert (H3 : 2 <= Dict.len (rag_instances DemoRoutes.crowded)) by (vm_compute; discriminate).
  split; [exact demo_crowded_reachable|]. split; [exact H2|]. split; [exact H3|].
  do 4 (split; [reflexivity|]).
  exact (failed_admission_still_evicts (api := Demo.api) 2 DemoRoutes.crowded
           "bad" "A" 1 "course_A" demo_crowded_reachable H2 H3
           eq_refl eq_refl eq_refl eq_refl).
Defined.

(** A has count 3 and B count 1: admitting C keeps A and its engine. *)
Lemma busier_course_survives_demo :
  reachable (api := Demo.api) 2 DemoRoutes.warm /\
  ~ In "C" (resident DemoRoutes.warm) /\
  2 <= Dict.len (rag_instances DemoRoutes.warm) /\
  get_rag (api := Demo.api) "C" DemoRoutes.warm =
    (Ok "course_C", snd (get_rag (api := Demo.api) "C" DemoRoutes.warm)) /\
  Dict.get (course_access_count DemoRoutes.warm) "A" = Some 3 /\
  Dict.get (course_access_count DemoRoutes.warm) "B" = Some 1 /\
  1 < 3 /\
  In "A" (resident (snd (get_rag (api := Demo.api) "C" DemoRoutes.warm))) /\
  Dict.get (rag_instances (snd (get_rag (api := Demo.api) "C" DemoRoutes.warm))) "A" =
    Dict.get (rag_instances DemoRoutes.warm) "A".
Proof.
  assert (H2 : ~ In "C" (resident DemoRoutes.warm)) by (apply demo_not_in; reflexivity).
  assert (H3 : 2 <= Dict.len (rag_instances DemoRoutes.warm)) by (vm_compute; discriminate).
  assert (H7 : 1 < 3) by lia.
  split; [exact demo_warm_reachable|]. split; [exact H2|]. split; [exact H3|].
  do 3 (split; [reflexivity|]). split; [exact H7|].
  exact (busier_course_survives (api := Demo.api) 2 DemoRoutes.warm _ "C" "A" "B"
           "course_C" 3 1 demo_warm_reachable H2 H3 (or_intror eq_refl)
           eq_refl eq_refl H7).
Defined.

Lemma admission_with_room_demo :
  reachable (api := Demo.api) 3 Demo.roomy /\
  ~ In "B" (resident Demo.roomy) /\
  Dict.len (rag_instances Demo.roomy) < 3 /\
  LightRAG_new (EngineAPI := Demo.api) (now Demo.roomy) ("course_" ++ "B") = Some "course_B" /\
  initialize_storages (EngineAPI := Demo.api) (S (now Demo.roomy)) "course_B" = true /\
  fst (get_rag (api := Demo.api) "B" Demo.roomy) = Ok "course_B" /\
  rag_instances (snd (get_rag (api := Demo.api) "B" Demo.roomy)) =
    (rag_instances Demo.roomy ++ [("B", "course_B")])%list /\
  course_access_count (snd (get_rag (api := Demo.api) "B" Demo.roomy)) =
    (course_access_count Demo.roomy ++ [("B", 1)])%list /\
  finalized (trace (snd (get_rag (api := Demo.api) "B" Demo.roomy))) =
    finalized (trace Demo.roomy).
Proof.
  assert (H2 : ~ In "B" (resident Demo.roomy)) by (apply demo_not_in; reflexivity).
  assert (H3 : Dict.len (rag_instances Demo.roomy) < 3) by (vm_compute; reflexivity).
  split; [exact demo_roomy_reachable|]. split; [exact H2|]. split; [exact H3|].
  do 2 (split; [reflexivity|]).
  exact (admission_with_room (api := Demo.api) 3 Demo.roomy "B" "course_B"
           demo_roomy_reachable H2 H3 eq_refl eq_refl).
Defined.

(** Admitting C into the full pool A, B: finalize, construct, initialise,
    log, in this order. *)
Lemma full_admission_call_order_demo :
  reachable (api := Demo.api) 2 DemoRoutes.crowded /\
  ~ In "C" (resident DemoRoutes.crowded) /\
  2 <= Dict.len (rag_instances DemoRoutes.crowded) /\
  initialize_course (api := Demo.api) "C" DemoRoutes.crowded =
    (Ok "course_C", snd (initialize_course (api := Demo.api) "C" DemoRoutes.crowded)) /\
  exists victim,
    In victim (resident DemoRoutes.crowded) /\
    ~ In victim (resident (snd (initialize_course (api := Demo.api) "C" DemoRoutes.crowded))) /\
    trace (snd (initialize_course (api := Demo.api) "C" DemoRoutes.crowded)) =
      (trace DemoRoutes.crowded ++
       [EvFinalize victim; EvConstruct ("course_" ++ "C"); EvInitialize "C";
        EvLog INFO (MsgInitialized "C")])%list.
Proof.
  assert (H2 : ~ In "C" (resident DemoRoutes.crowded)) by (apply demo_not_in; reflexivity).
  assert (H3 : 2 <= Dict.len (rag_instances DemoRoutes.crowded)) by (vm_compute; discriminate).
  split; [exact demo_crowded_reachable|]. split; [exact H2|]. split; [exact H3|].
  split; [reflexivity|].
  exact (full_admission_call_order (api := Demo.api) 2 DemoRoutes.crowded _ "C" "course_C"
           demo_crowded_reachable H2 H3 eq_refl).
Defined.

(** Capacity -1: [ids[:-1]] of x, y keeps x, and the preload raises. *)
Lemma negative_capacity_raises_demo :
  reachable (api := Demo.api) (-1) DemoRoutes.inverted /\
  -1 < 0 /\
  rag_instances DemoRoutes.inverted = [] /\
  course_access_count DemoRoutes.inverted = [] /\
  get_rag (api := Demo.api) "B" DemoRoutes.inverted = (Raise ValueError, DemoRoutes.inverted) /\
  slice_to (-1) ["x"; "y"] = firstn (length ["x"; "y"] - Z.to_nat (- (-1))) ["x"; "y"] /\
  fst (preload_courses (api := Demo.api) ["x"; "y"] DemoRoutes.inverted) =
    (if Z.of_nat (length ["x"; "y"]) + -1 <=? 0 then Ok tt else Raise ValueError) /\
  rag_instances (snd (preload_courses (api := Demo.api) ["x"; "y"] DemoRoutes.inverted)) = [] /\
  constructed (trace (snd (preload_courses (api := Demo.api) ["x"; "y"] DemoRoutes.inverted))) =
    constructed (trace DemoRoutes.inverted).
Proof.
  assert (H1 : reachable (api := Demo.api) (-1) DemoRoutes.inverted)
    by (exists [OpGet "A"]; reflexivity).
  assert (H2 : -1 < 0) by lia.
  split; [exact H1|]. split; [exact H2|].
  exact (negative_capacity_raises (api := Demo.api) (-1) DemoRoutes.inverted "B"
           ["x"; "y"] H1 H2).
Defined.

(** Preloading A, B, Z with capacity 2 retains A, B, both resident. *)
Lemma preload_resident_courses_is_noop_demo :
  reachable (api := Demo.api) 2 Demo.skewed /\
  (forall c, In c (slice_to 2 ["A"; "B"; "Z"]) -> In c (resident Demo.skewed)) /\
  preload_courses (api := Demo.api) ["A"; "B"; "Z"] Demo.skewed =
    (Ok tt,
     emit (EvLog INFO (MsgPreloaded (Z.of_nat (length (slice_to 2 ["A"; "B"; "Z"])))))
       Demo.skewed).
Proof.
  assert (H2 : forall c, In c (slice_to 2 ["A"; "B"; "Z"]) -> In c (resident Demo.skewed))
    by (intros c H; exact H).
  split; [exact demo_skewed_reachable|]. split; [exact H2|].
  exact (preload_resident_courses_is_noop (api := Demo.api) 2 Demo.skewed
           ["A"; "B"; "Z"] demo_skewed_reachable H2).
Defined.

(** A had count 2 before the cleanup and has count 1 after the next get. *)
Lemma get_rag_after_cleanup_demo :
  1 <= max_preloaded Demo.skewed /\
  LightRAG_new (EngineAPI := Demo.api)
    (now (snd (cleanup (api := Demo.api) Demo.skewed))) ("course_" ++ "A") = Some "course_A" /\
  initialize_storages (EngineAPI := Demo.api)
    (S (now (snd (cleanup (api := Demo.api) Demo.skewed)))) "course_A" = true /\
  fst (get_rag (api := Demo.api) "A" (snd (cleanup (api := Demo.api) Demo.skewed))) =
    Ok "course_A" /\
  rag_instances (snd (get_rag (api := Demo.api) "A"
                        (snd (cleanup (api := Demo.api) Demo.skewed)))) =
    [("A", "course_A")] /\
  course_access_count (snd (get_rag (api := Demo.api) "A"
                              (snd (cleanup (api := Demo.api) Demo.skewed)))) =
    [("A", 1)].
Proof.
  assert (H1 : 1 <= max_preloaded Demo.skewed) by (vm_compute; discriminate).
  split; [exact H1|]. do 2 (split; [reflexivity|]).
  exact (get_rag_after_cleanup (api := Demo.api) Demo.skewed "A" "course_A"
           H1 eq_refl eq_refl).
Defined.

(** A source without nodes is asked for course A: the reply is a 500, and
    the count of A still goes from 3 to 4. *)
Lemma request_counts_as_use_demo :
  reachable (api := Demo.api) 2 DemoRoutes.warm /\
  In (request_course (ReqSource "nodoc" "A")) (resident DemoRoutes.warm) /\
  status_of (fst (route_get_source_graph (api := Demo.api) (queries := DemoRoutes.queries)
                    "nodoc" "A" DemoRoutes.warm)) = Some 500 /\
  serve (api := Demo.api) (queries := DemoRoutes.queries)
      (ReqSource "nodoc" "A") DemoRoutes.warm =
    touched (request_course (ReqSource "nodoc" "A")) DemoRoutes.warm /\
  exists n,
    Dict.get (course_access_count DemoRoutes.warm)
      (request_course (ReqSource "nodoc" "A")) = Some n /\
    Dict.get (course_access_count
                (serve (api := Demo.api) (queries := DemoRoutes.queries)
                   (ReqSource "nodoc" "A") DemoRoutes.warm))
      (request_course (ReqSource "nodoc" "A")) = Some (n + 1).
Proof.
  assert (H2 : In (request_course (ReqSource "nodoc" "A")) (resident DemoRoutes.warm))
    by demo_in.
  split; [exact demo_warm_reachable|]. split; [exact H2|]. split; [reflexivity|].
  exact (request_counts_as_use (api := Demo.api) (queries := DemoRoutes.queries)
           2 DemoRoutes.warm (ReqSource "nodoc" "A") demo_warm_reachable H2).
Defined.

(** "bad" cannot be built: the failure of [get_rag] is the constructor's. *)
Lemma get_rag_fails_only_with_the_engine_demo :
  reachable (api := Demo.api) 3 Demo.roomy /\
  1 <= 3 /\
  fst (get_rag (api := Demo.api) "bad" Demo.roomy) = Raise ConstructError /\
  (fst (get_rag (api := Demo.api) "bad" Demo.roomy) = Raise ConstructError \/
   fst (get_rag (api := Demo.api) "bad" Demo.roomy) = Raise InitializeError \/
   fst (get_rag (api := Demo.api) "bad" Demo.roomy) = Raise FinalizeError \/
   exists rag, fst (get_rag (api := Demo.api) "bad" Demo.roomy) = Ok rag /\
     Dict.get (rag_instances (snd (get_rag (api := Demo.api) "bad" Demo.roomy))) "bad" =
       Some rag).
Proof.
  assert (H2 : 1 <= 3) by lia.
  split; [exact demo_roomy_reachable|]. split; [exact H2|]. split; [reflexivity|].
  exact (get_rag_fails_only_with_the_engine (api := Demo.api) 3 Demo.roomy "bad"
           demo_roomy_reachable H2).
Defined.

(** A and B both have count 1: admitting C drops A, the first key. *)
Lemma eviction_is_fifo_on_ties_demo :
  reachable (api := Demo.api) 2 DemoRoutes.crowded /\
  ~ In "C" (resident DemoRoutes.crowded) /\
  2 <= Dict.len (rag_instances DemoRoutes.crowded) /\
  initialize_course (api := Demo.api) "C" DemoRoutes.crowded =
    (Ok "course_C", snd (initialize_course (api := Demo.api) "C" DemoRoutes.crowded)) /\
  course_access_count DemoRoutes.crowded = ("A", 1) :: [("B", 1)] /\
  Forall (fun kv => 1 <= snd kv) [("B", 1)] /\
  resident (snd (initialize_course (api := Demo.api) "C" DemoRoutes.crowded)) =
    (Dict.keys [("B", 1)] ++ ["C"])%list /\
  course_access_count (snd (initialize_course (api := Demo.api) "C" DemoRoutes.crowded)) =
    ([("B", 1)] ++ [("C", 0)])%list.
Proof.
  assert (H2 : ~ In "C" (resident DemoRoutes.crowded)) by (apply demo_not_in; reflexivity).
  assert (H3 : 2 <= Dict.len (rag_instances DemoRoutes.crowded)) by (vm_compute; discriminate).
  assert (H6 : Forall (fun kv : string * Z => 1 <= snd kv) [("B", 1)])
    by (repeat constructor; cbn; lia).
  split; [exact demo_crowded_reachable|]. split; [exact H2|]. split; [exact H3|].
  do 2 (split; [reflexivity|]). split; [exact H6|].
  exact (eviction_is_fifo_on_ties (api := Demo.api) 2 DemoRoutes.crowded _ "C" "A"
           "course_C" 1 [("B", 1)] demo_crowded_reachable H2 H3 eq_refl eq_refl H6).
Defined.

(** P is initialised next to A (count 1) and never used; admitting N then
    evicts P, not A. *)
Lemma unused_course_is_next_victim_demo :
  reachable (api := Demo.api) 2 DemoRoutes.single /\
  Forall (fun kv => 1 <= snd kv) (course_access_count DemoRoutes.single) /\
  ~ In "P" (resident DemoRoutes.single) /\
  initialize_course (api := Demo.api) "P" DemoRoutes.single =
    (Ok "course_P", Demo.run [OpGet "A"; OpInitialize "P"] (Demo.fresh 2)) /\
  2 <= Dict.len (rag_instances (Demo.run [OpGet "A"; OpInitialize "P"] (Demo.fresh 2))) /\
  ~ In "N" (resident (Demo.run [OpGet "A"; OpInitialize "P"] (Demo.fresh 2))) /\
  get_rag (api := Demo.api) "N" (Demo.run [OpGet "A"; OpInitialize "P"] (Demo.fresh 2)) =
    (Ok "course_N", Demo.run [OpGet "A"; OpInitialize "P"; OpGet "N"] (Demo.fresh 2)) /\
  ~ In "P" (resident (Demo.run [OpGet "A"; OpInitialize "P"; OpGet "N"] (Demo.fresh 2))) /\
  resident (Demo.run [OpGet "A"; OpInitialize "P"; OpGet "N"] (Demo.fresh 2)) =
    (remove string_dec "P"
       (resident (Demo.run [OpGet "A"; OpInitialize "P"] (Demo.fresh 2))) ++ ["N"])%list.
Proof.
  assert (H1 : reachable (api := Demo.api) 2 DemoRoutes.single)
    by (exists [OpGet "A"]; reflexivity).
  assert (H2 : Forall (fun kv : string * Z => 1 <= snd kv)
                 (course_access_count DemoRoutes.single))
    by (repeat constructor; cbn; lia).
  assert (H3 : ~ In "P" (resident DemoRoutes.single)) by (apply demo_not_in; reflexivity).
  assert (H5 : 2 <= Dict.len (rag_instances
                 (Demo.run [OpGet "A"; OpInitialize "P"] (Demo.fresh 2))))
    by (vm_compute; discriminate).
  assert (H6 : ~ In "N" (resident (Demo.run [OpGet "A"; OpInitialize "P"] (Demo.fresh 2))))
    by (apply demo_not_in; reflexivity).
  split; [exact H1|]. split; [exact H2|]. split; [exact H3|]. split; [reflexivity|].
  split; [exact H5|]. split; [exact H6|]. split; [reflexivity|].
  exact (unused_course_is_next_victim (api := Demo.api) 2 DemoRoutes.single _ _
           "P" "N" "course_P" "course_N" H1 H2 H3 eq_refl H5 H6 eq_refl).
Defined.

(** Preloading x, y with capacity 3 admits both. *)
Lemma preload_admits_all_when_they_fit_demo :
  rag_instances (Demo.fresh 3) = [] /\
  course_access_count (Demo.fresh 3) = [] /\
  Z.of_nat (length ["x"; "y"]) <= max_preloaded (Demo.fresh 3) /\
  NoDup ["x"; "y"] /\
  fst (preload_courses (api := Demo.api) ["x"; "y"] (Demo.fresh 3)) = Ok tt /\
  resident (snd (preload_courses (api := Demo.api) ["x"; "y"] (Demo.fresh 3))) =
    ["x"; "y"] /\
  course_access_count (snd (preload_courses (api := Demo.api) ["x"; "y"] (Demo.fresh 3))) =
    map (fun c => (c, 0)) ["x"; "y"] /\
  constructed (trace (snd (preload_courses (api := Demo.api) ["x"; "y"] (Demo.fresh 3)))) =
    (constructed (trace (Demo.fresh 3)) ++
     map (fun c => ("course_" ++ c)%string) ["x"; "y"])%list.
Proof.
  assert (H3 : Z.of_nat (length ["x"; "y"]) <= max_preloaded (Demo.fresh 3))
    by (vm_compute; discriminate).
  assert (H4 : NoDup ["x"; "y"]) by demo_nodup.
  do 2 (split; [reflexivity|]). split; [exact H3|]. split; [exact H4|].
  apply (preload_admits_all_when_they_fit (api := Demo.api) (Demo.fresh 3) ["x"; "y"]
           eq_refl eq_refl H3 H4).
  intros c Hin. apply demo_buildable.
  destruct Hin as [<-|[<-|[]]]; reflexivity.
Defined.
